(** * SuperFetch: a shallow embedding of the resilient HTTP client

    The class [SuperFetch] (src/unnamed/part_003) wraps the platform's
    [fetch] with per-endpoint cancellation, timeouts, retries and content
    negotiation.  This development embeds the class as a transition system:

    - JavaScript values are the inductive type [jsval]; its numbers are
      the safe integers (the type [number]: the integers up to
      [Number.MAX_SAFE_INTEGER] in size, which are numbers exactly and
      print as their decimal digits), strings are byte strings (UTF-8);
    - the values a caller passes ([data], [opts]) are values, not
      references: a caller that mutates them while its call is suspended
      is outside the model;
    - plain objects are association lists in property order, with the
      object-spread operator written out ([obj_set], [spread]);
    - the private [#controllers] [Map] is a [gmap] from keys to controller
      identities, the [AbortController] objects themselves live in a store
      of [aborted] flags shared by the registry and the running requests;
    - an [async] call is a task that is suspended at its [await]s; the
      platform (network, timers, other callers) is the source of events;
    - the platform's [URL] parser is a parameter of the development. *)

From Stdlib Require Import ZArith Ascii String List Lia Bool.
From stdpp Require Import base option list gmap strings pretty.

Set Warnings "-register-all".
Local Open Scope string_scope.
Local Open Scope Z_scope.

(** ** JavaScript values *)

(** [Number.MAX_SAFE_INTEGER] and [Number.isSafeInteger], on integers. *)
Definition MAX_SAFE_INTEGER : Z := 9007199254740991.

Definition isSafeInteger (n : Z) : bool :=
  (- MAX_SAFE_INTEGER <=? n) && (n <=? MAX_SAFE_INTEGER).

(** The numbers of the model: the safe integers. *)
Record number : Type := Num {
  num_val : Z;
  num_safe : Is_true (isSafeInteger num_val)
}.

Definition number_of_Z (n : Z) : option number :=
  match isSafeInteger n as b return (Is_true b -> number) -> option number with
  | true => fun k => Some (k I)
  | false => fun _ => None
  end (Num n).

Declare Scope number_scope.
Delimit Scope number_scope with number.
Bind Scope number_scope with number.
Number Notation number number_of_Z num_val : number_scope.

Module JS.

Inductive jsval : Type :=
| VUndefined
| VNull
| VBool (b : bool)
| VNum (n : number)
| VStr (s : string)
| VArr (items : list jsval)
| VObj (props : list (string * jsval))
| VFormData (fields : list (string * string))
| VBlob (type : string) (bytes : string).

(** The shape of a plain object: own enumerable string-keyed properties in
    enumeration order. *)
Definition object : Type := list (string * jsval).

(** [ToBoolean]: what [!v], [v ? a : b], [v || d] and [v && e] test. *)
Definition truthy (v : jsval) : bool :=
  match v with
  | VUndefined | VNull => false
  | VBool b => b
  | VNum n => negb (num_val n =? 0)
  | VStr s => negb (String.eqb s "")
  | VArr _ | VObj _ | VFormData _ | VBlob _ _ => true
  end.

(** [typeof v === 'object'] (true of [null], too). *)
Definition typeof_object (v : jsval) : bool :=
  match v with
  | VNull | VArr _ | VObj _ | VFormData _ | VBlob _ _ => true
  | _ => false
  end.

Definition typeof_string (v : jsval) : bool :=
  match v with VStr _ => true | _ => false end.

Definition isArray (v : jsval) : bool :=
  match v with VArr _ => true | _ => false end.

(** [a || b] *)
Definition or_else (a b : jsval) : jsval := if truthy a then a else b.

(** [a ?? b] on an optional number. *)
Definition nullish {A} (a : option A) (b : A) : A :=
  match a with Some x => x | None => b end.

(** [n || 0] on an optional number. *)
Definition num_or_zero (a : option Z) : Z :=
  match a with Some n => if n =? 0 then 0 else n | None => 0 end.

Definition join (sep : string) (l : list string) : string :=
  String.concat sep l.

(** [String(v)], as used by template literals and by the conversion of
    arguments to [USVString]. *)
Fixpoint ToString (v : jsval) : string :=
  match v with
  | VUndefined => "undefined"
  | VNull => "null"
  | VBool b => if b then "true" else "false"
  | VNum n => pretty (num_val n)
  | VStr s => s
  | VArr items =>
      join "," (map (fun x => match x with
                              | VUndefined | VNull => ""
                              | _ => ToString x
                              end) items)
  | VObj _ => "[object Object]"
  | VFormData _ => "[object FormData]"
  | VBlob _ _ => "[object Blob]"
  end.

(** *** JSON.stringify *)

Definition dquote : ascii := "034"%char.
Definition backslash : ascii := "092"%char.

Definition hex_digit (n : nat) : ascii :=
  ascii_of_nat (if Nat.ltb n 10 then 48 + n else 87 + n)%nat.

Definition json_escape_char (c : ascii) : string :=
  let n := nat_of_ascii c in
  if Ascii.eqb c dquote then String backslash (String dquote "")
  else if Ascii.eqb c backslash then String backslash (String backslash "")
  else if Nat.eqb n 8 then String backslash "b"
  else if Nat.eqb n 9 then String backslash "t"
  else if Nat.eqb n 10 then String backslash "n"
  else if Nat.eqb n 12 then String backslash "f"
  else if Nat.eqb n 13 then String backslash "r"
  else if Nat.ltb n 32 then
    String backslash
      ("u00" ++ String (hex_digit (n / 16)) (String (hex_digit (n mod 16)) ""))
  else String c "".

Fixpoint json_escape (s : string) : string :=
  match s with
  | EmptyString => ""
  | String c rest => json_escape_char c ++ json_escape rest
  end.

Definition json_quote (s : string) : string :=
  String dquote (json_escape s ++ String dquote "").

(** [JSON.stringify v]; [None] is the result [undefined]. *)
Fixpoint JSON_stringify (v : jsval) : option string :=
  match v with
  | VUndefined => None
  | VNull => Some "null"
  | VBool b => Some (if b then "true" else "false")
  | VNum n => Some (pretty (num_val n))
  | VStr s => Some (json_quote s)
  | VArr items =>
      Some ("[" ++ join "," (map (fun x => match JSON_stringify x with
                                           | Some s => s
                                           | None => "null"
                                           end) items) ++ "]")
  | VObj props =>
      Some ("{" ++ join ","
                 (omap (fun kv => match JSON_stringify (snd kv) with
                                  | Some s => Some (json_quote (fst kv) ++ ":" ++ s)
                                  | None => None
                                  end) props) ++ "}")
  | VFormData _ | VBlob _ _ => Some "{}"
  end.

(** *** Plain objects *)

Fixpoint obj_get (k : string) (o : object) : option jsval :=
  match o with
  | [] => None
  | (k', v) :: rest => if String.eqb k k' then Some v else obj_get k rest
  end.

(** [o[k] = v]: an existing property keeps its place, a new one goes last. *)
Fixpoint obj_set (o : object) (k : string) (v : jsval) : object :=
  match o with
  | [] => [(k, v)]
  | (k', v') :: rest =>
      if String.eqb k k' then (k', v) :: rest else (k', v') :: obj_set rest k v
  end.

(** [{...o, ...src}]: the properties of [src] are copied over [o] in order. *)
Definition spread (o src : object) : object :=
  fold_left (fun acc kv => obj_set acc (fst kv) (snd kv)) src o.

(** An object has each key once. *)
Definition wf_object (o : object) : Prop := NoDup (map fst o).

Fixpoint index_entries (i : nat) (items : list jsval) : object :=
  match items with
  | [] => []
  | x :: rest => (pretty i, x) :: index_entries (S i) rest
  end.

(** [Object.entries(v)] for a truthy [v] with [typeof v === 'object']. *)
Definition Object_entries (v : jsval) : object :=
  match v with
  | VObj props => props
  | VArr items => index_entries 0 items
  | _ => []
  end.

End JS.
Export JS.

(** ** The platform's URL objects

    A parsed URL keeps its serialized scheme, authority and path in
    [url_prefix]; its query is [url_query] ([None] is the null query) and
    [url_searchParams] is the list its [searchParams] object holds. *)

Module Url.

Record URL : Type := mkURL {
  url_prefix : string;
  url_query : option string;
  url_searchParams : list (string * string);
  url_fragment : option string
}.

Definition is_alnum (c : ascii) : bool :=
  let n := nat_of_ascii c in
  ((48 <=? n) && (n <=? 57) || (65 <=? n) && (n <=? 90)
   || (97 <=? n) && (n <=? 122))%nat.

Definition hex_upper (n : nat) : ascii :=
  ascii_of_nat (if Nat.ltb n 10 then 48 + n else 55 + n)%nat.

(** The application/x-www-form-urlencoded byte serializer: alphanumerics
    and [*-._] stay, a space becomes [+], every other byte is
    percent-encoded. *)
Definition urlencode_byte (c : ascii) : string :=
  let n := nat_of_ascii c in
  if Nat.eqb n 32 then "+"
  else if is_alnum c || Nat.eqb n 42 || Nat.eqb n 45 || Nat.eqb n 46
          || Nat.eqb n 95
  then String c ""
  else String "%" (String (hex_upper (n / 16)) (String (hex_upper (n mod 16)) "")).

Fixpoint urlencode (s : string) : string :=
  match s with
  | EmptyString => ""
  | String c rest => urlencode_byte c ++ urlencode rest
  end.

Definition serialize_pair (kv : string * string) : string :=
  urlencode (fst kv) ++ "=" ++ urlencode (snd kv).

Definition serialize (l : list (string * string)) : string :=
  join "&" (map serialize_pair l).

(** [url.searchParams.append(name, value)]: the pair goes last and the
    URL's query is replaced by the serialization of the whole list. *)
Definition searchParams_append (u : URL) (name value : string) : URL :=
  let l := (url_searchParams u ++ [(name, value)])%list in
  let q := serialize l in
  mkURL (url_prefix u) (if String.eqb q "" then None else Some q) l
        (url_fragment u).

(** [url.toString()] *)
Definition href (u : URL) : string :=
  url_prefix u
  ++ match url_query u with Some q => "?" ++ q | None => "" end
  ++ match url_fragment u with Some f => "#" ++ f | None => "" end.

End Url.
Export Url.

(** ** Data of the class *)

Record error : Type := Error { err_name : string; err_message : string }.

Record SuperFetchOptions : Type := {
  cfg_token : jsval;
  cfg_logRequests : bool;
  cfg_timeout : option Z;
  cfg_retries : option Z
}.

Record RequestOptions : Type := {
  opt_token : jsval;
  opt_timeout : option Z;
  opt_log : bool;
  opt_retries : option Z;
  opt_headers : option object
}.

(** [opts = {}] *)
Definition no_opts : RequestOptions :=
  {| opt_token := VUndefined; opt_timeout := None; opt_log := false;
     opt_retries := None; opt_headers := None |}.

Definition no_options : SuperFetchOptions :=
  {| cfg_token := VUndefined; cfg_logRequests := false; cfg_timeout := None;
     cfg_retries := None |}.

(** The private fields of an instance.  [controllers] maps a key to the
    identity of the [AbortController] registered under it. *)
Record SuperFetch : Type := {
  token : jsval;
  root : string;
  logRequests : bool;
  defaultTimeout : Z;
  defaultRetries : Z;
  controllers : gmap string nat
}.

(** [/^https?:\/\//.test(s)] *)
Definition root_regex_test (s : string) : bool :=
  String.prefix "http://" s || String.prefix "https://" s.

Definition constructor (root0 : jsval) (options : SuperFetchOptions)
  : error + SuperFetch :=
  if negb (truthy root0) || negb (typeof_string root0)
     || negb (root_regex_test (ToString root0))
  then inl (Error "Error" "Invalid 'root' URL provided.")
  else inr {| root := ToString root0;
              token := or_else (cfg_token options) VNull;
              logRequests := cfg_logRequests options;
              defaultTimeout := num_or_zero (cfg_timeout options);
              defaultRetries := num_or_zero (cfg_retries options);
              controllers := ∅ |}.

(** ** Requests in flight *)

Record Response : Type := {
  ok : bool;
  status : number;
  statusText : string;
  resp_headers : list (string * string)
}.

Definition lower_ascii (c : ascii) : ascii :=
  let n := nat_of_ascii c in
  if ((65 <=? n) && (n <=? 90))%nat then ascii_of_nat (n + 32) else c.

Fixpoint toLowerCase (s : string) : string :=
  match s with
  | EmptyString => ""
  | String c rest => String (lower_ascii c) (toLowerCase rest)
  end.

(** [headers.get(name)]: names are matched in lower case, as the platform
    stores them. *)
Fixpoint Headers_get (name : string) (h : list (string * string)) : option string :=
  match h with
  | [] => None
  | (k, v) :: rest =>
      if String.eqb (toLowerCase name) k then Some v else Headers_get name rest
  end.

(** [s.includes(needle)] *)
Fixpoint includes (needle s : string) : bool :=
  String.prefix needle s
  || match s with
     | EmptyString => false
     | String _ rest => includes needle rest
     end.

(** [response.headers.get('Content-Type')?.includes(ty)] *)
Definition declares (r : Response) (ty : string) : bool :=
  match Headers_get "Content-Type" (resp_headers r) with
  | Some v => includes ty v
  | None => false
  end.

Inductive reader : Type := Rjson | Rtext | Rblob | RarrayBuffer.

Definition choose_reader (r : Response) : reader :=
  if declares r "application/json" then Rjson
  else if declares r "text/plain" then Rtext
  else if declares r "application/octet-stream" then Rblob
  else RarrayBuffer.

(** What a call resolves with: the decoded payload, the object
    [{ result: 'nok', message }], or [undefined] when the loop body never
    ran. *)
Inductive RequestOutcome : Type :=
| Payload (v : jsval)
| Nok (message : string)
| NoValue.

(** The [await] a call is suspended at. *)
Inductive await : Type :=
| AwaitFetch
| AwaitErrorText (r : Response)
| AwaitBody (r : Response) (k : reader).

Inductive pc : Type :=
| Suspended (a : await)
| Returned (o : RequestOutcome).

(** The constants of one call of [#request] ... *)
Record frame : Type := {
  rq_method : string;
  rq_path : string;
  rq_data : jsval;
  rq_opts : RequestOptions;
  rq_url : string;
  rq_controller : nat;
  rq_timeoutMs : Z;
  rq_attempts : Z
}.

(** ... and its loop variables.  [timeoutId] tells whether the timer of the
    current attempt is armed. *)
Record task : Type := {
  rq : frame;
  attempt : Z;
  timeoutId : bool;
  at_ : pc
}.

Definition rq_key (f : frame) : string := rq_method f ++ "::" ++ rq_url f.

(** The argument of one [fetch]. *)
Record fetch_call : Type := {
  f_url : string;
  f_method : string;
  f_headers : object;
  f_body : jsval;
  f_signal : nat
}.

(** What the class does to the outside, in order. *)
Inductive effect : Type :=
| EAbort (c : nat)
| EFetch (tid : nat) (f : fetch_call)
| ELog (method path status : string) (attempt1 : Z)
| EThrow (e : error).

(** The instance, the store of controllers ([signals !! c] is
    [controller.signal.aborted]), the calls made so far and the effects so
    far. *)
Record world : Type := {
  self : SuperFetch;
  signals : list bool;
  tasks : list task;
  trace : list effect
}.

Definition set_controllers (this : SuperFetch) (m : gmap string nat) : SuperFetch :=
  {| token := token this; root := root this; logRequests := logRequests this;
     defaultTimeout := defaultTimeout this;
     defaultRetries := defaultRetries this; controllers := m |}.

Definition set_token (this : SuperFetch) (v : jsval) : SuperFetch :=
  {| token := v; root := root this; logRequests := logRequests this;
     defaultTimeout := defaultTimeout this;
     defaultRetries := defaultRetries this; controllers := controllers this |}.

Definition init (this : SuperFetch) : world :=
  {| self := this; signals := []; tasks := []; trace := [] |}.

Definition aborted (w : world) (c : nat) : bool :=
  match signals w !! c with Some b => b | None => false end.

(** *** Headers and body of an attempt *)

Definition bearer (t : jsval) : object :=
  if truthy t then [("Authorization", VStr ("Bearer " ++ ToString t))] else [].

(** [{ ...instance auth, ...call auth, ...(opts.headers || {}) }] *)
Definition headers (this : SuperFetch) (opts : RequestOptions) : object :=
  spread (spread (spread [] (bearer (token this))) (bearer (opt_token opts)))
         (nullish (opt_headers opts) []).

(** The [if] chain on [data]: the pair of [contentType] and [body]. *)
Definition content (data : jsval) : jsval * jsval :=
  match data with
  | VFormData _ => (VStr "multipart/form-data", data)
  | VBlob ty _ => (or_else (VStr ty) (VStr "application/octet-stream"), data)
  | _ =>
      if truthy data && typeof_object data then
        (VStr "application/json",
         match JSON_stringify data with Some s => VStr s | None => VUndefined end)
      else if typeof_string data then (VStr "text/plain", data)
      else (VUndefined, VUndefined)
  end.

(** [{ 'Content-Type': contentType, ...headers }] *)
Definition requestHeaders (this : SuperFetch) (opts : RequestOptions)
    (data : jsval) : object :=
  spread (obj_set [] "Content-Type" (fst (content data))) (headers this opts).

Definition fetch_args (this : SuperFetch) (f : frame) : fetch_call :=
  {| f_url := rq_url f; f_method := rq_method f;
     f_headers := requestHeaders this (rq_opts f) (rq_data f);
     f_body := snd (content (rq_data f));
     f_signal := rq_controller f |}.

(** [#log]; the duration it prints is wall-clock time and is left out. *)
Definition log (this : SuperFetch) (f : frame) (status : string) (attempt0 : Z)
  : list effect :=
  if negb (logRequests this) && negb (opt_log (rq_opts f)) then []
  else [ELog (rq_method f) (rq_path f) status (attempt0 + 1)].

(** *** The retry loop of [#request], from one [await] to the next *)

(** The loop test and the body up to [await fetch]. *)
Definition enter_loop (this : SuperFetch) (tid : nat) (f : frame) (attempt0 : Z)
  : task * list effect :=
  if attempt0 <? rq_attempts f then
    ({| rq := f; attempt := attempt0; timeoutId := 0 <? rq_timeoutMs f;
        at_ := Suspended AwaitFetch |},
     [EFetch tid (fetch_args this f)])
  else
    ({| rq := f; attempt := attempt0; timeoutId := false;
        at_ := Returned NoValue |}, []).

(** The [catch] block. *)
Definition catch (this : SuperFetch) (tid : nat) (t : task) (err : error)
  : task * list effect :=
  if String.eqb (err_name err) "AbortError" then
    ({| rq := rq t; attempt := attempt t; timeoutId := false;
        at_ := Returned (Nok (err_message err)) |},
     log this (rq t) "ABORT" (attempt t))
  else if attempt t <? rq_attempts (rq t) - 1 then
    let '(t', eff) := enter_loop this tid (rq t) (attempt t + 1) in
    (t', (log this (rq t) "RETRY" (attempt t) ++ eff)%list)
  else
    ({| rq := rq t; attempt := attempt t; timeoutId := false;
        at_ := Returned (Nok (err_message err)) |},
     log this (rq t) "ERROR" (attempt t)).

(** What the platform hands back at an [await]. *)
Inductive settlement : Type :=
| Responded (r : Response)
| BodyRead (v : jsval)
| Rejected (err : error).

Definition errorDetails (r : Response) (body : jsval) : jsval :=
  VObj [("status", VNum (status r)); ("statusText", VStr (statusText r));
        ("headers", VObj (map (fun kv => (fst kv, VStr (snd kv))) (resp_headers r)));
        ("body", body)].

Definition request_failed (r : Response) (body : jsval) : error :=
  Error "Error"
    ("Request failed: "
     ++ match JSON_stringify (errorDetails r body) with Some s => s | None => "undefined" end).

(** The [try] block after an [await] settles; [None] when the settlement
    is not one the pending [await] can receive. *)
Definition resume (this : SuperFetch) (tid : nat) (t : task) (s : settlement)
  : option (task * list effect) :=
  match at_ t, s with
  | Suspended _, Rejected err => Some (catch this tid t err)
  | Suspended AwaitFetch, Responded r =>
      Some ({| rq := rq t; attempt := attempt t; timeoutId := false;
               at_ := Suspended (if negb (ok r) then AwaitErrorText r
                                 else AwaitBody r (choose_reader r)) |}, [])
  | Suspended (AwaitErrorText r), BodyRead v =>
      Some (catch this tid
              {| rq := rq t; attempt := attempt t; timeoutId := false; at_ := at_ t |}
              (request_failed r v))
  | Suspended (AwaitBody r k), BodyRead v =>
      Some ({| rq := rq t; attempt := attempt t; timeoutId := false;
               at_ := Returned (Payload v) |},
            log this (rq t) (ToString (VNum (status r))) (attempt t))
  | _, _ => None
  end.

(** ** The class as a transition system *)

Inductive verb_call : Type :=
| Get (path : string) (params : jsval) (opts : RequestOptions)
| Post (path : string) (data : jsval) (opts : RequestOptions)
| Put (path : string) (data : jsval) (opts : RequestOptions)
| Patch (path : string) (data : jsval) (opts : RequestOptions)
| Delete (path : string) (opts : RequestOptions).

Inductive event : Type :=
| Call (c : verb_call)            (* a caller invokes a verb *)
| Settle (tid : nat) (s : settlement) (* the pending await of a call settles *)
| Timeout (tid : nat)             (* the armed timer of a call fires *)
| AbortAll                        (* a caller invokes abortAll() *)
| SetToken (v : jsval).           (* a caller assigns the token *)

Definition set_self (w : world) (this : SuperFetch) : world :=
  {| self := this; signals := signals w; tasks := tasks w; trace := trace w |}.

Definition emit (w : world) (eff : list effect) : world :=
  {| self := self w; signals := signals w; tasks := tasks w;
     trace := (trace w ++ eff)%list |}.

(** [controller.abort()] on the controller [c]. *)
Definition signal_abort (c : nat) (w : world) : world :=
  {| self := self w; signals := <[c := true]> (signals w); tasks := tasks w;
     trace := (trace w ++ [EAbort c])%list |}.

(** [#abort(key)] *)
Definition abort (key : string) (w : world) : world :=
  match controllers (self w) !! key with
  | Some ctrl =>
      let w1 := signal_abort ctrl w in
      set_self w1 (set_controllers (self w1) (delete key (controllers (self w1))))
  | None => w
  end.

(** [#createAbortController(key)]: the new controller is the next free
    cell of the store. *)
Definition createAbortController (key : string) (w : world) : world * nat :=
  let w1 := abort key w in
  let controller := length (signals w1) in
  ({| self := set_controllers (self w1) (<[key := controller]> (controllers (self w1)));
      signals := (signals w1 ++ [false])%list;
      tasks := tasks w1; trace := trace w1 |},
   controller).

(** [abortAll()].  The [Map] is walked in the order of the finite map,
    not in insertion order; the aborts commute. *)
Definition abortAll (w : world) : world :=
  let w1 := foldr signal_abort w (snd <$> map_to_list (controllers (self w))) in
  set_self w1 (set_controllers (self w1) ∅).

(** A parameter with the default [null]: [undefined] is replaced. *)
Definition default_null (v : jsval) : jsval :=
  match v with VUndefined => VNull | _ => v end.

Definition array_items (v : jsval) : list jsval :=
  match v with VArr items => items | _ => [] end.

Section Machine.

(** [URL_new path base] is [new URL(path, base)]; [None] stands for the
    [TypeError] the platform throws on an unparsable pair. *)
Variable URL_new : string -> string -> option URL.

(** [#buildUrl(path, params)] *)
Definition buildUrl (this : SuperFetch) (path : string) (params : jsval)
  : error + string :=
  match URL_new path (root this) with
  | None => inl (Error "TypeError" "Invalid URL")
  | Some url =>
      inr (href
        (if truthy params && typeof_object params then
           fold_left
             (fun u kv =>
                if isArray (snd kv) then
                  fold_left (fun u' val => searchParams_append u' (fst kv) (ToString val))
                            (array_items (snd kv)) u
                else searchParams_append u (fst kv) (ToString (snd kv)))
             (Object_entries params) url
         else url))
  end.

(** [#request(method, path, data = null, opts = {})] up to its first
    [await] *)
Definition request (method path : string) (data0 : jsval) (opts : RequestOptions)
    (w : world) : world :=
  let data := default_null data0 in
  match buildUrl (self w) path (if String.eqb method "GET" then data else VNull) with
  | inl e => emit w [EThrow e]
  | inr url =>
      let '(w1, controller) := createAbortController (method ++ "::" ++ url) w in
      let timeoutMs := nullish (opt_timeout opts) (defaultTimeout (self w1)) in
      let attempts := 1 + nullish (opt_retries opts) (defaultRetries (self w1)) in
      let f := {| rq_method := method; rq_path := path; rq_data := data;
                  rq_opts := opts; rq_url := url; rq_controller := controller;
                  rq_timeoutMs := timeoutMs; rq_attempts := attempts |} in
      let '(t, eff) := enter_loop (self w1) (length (tasks w1)) f 0 in
      {| self := self w1; signals := signals w1;
         tasks := (tasks w1 ++ [t])%list; trace := (trace w1 ++ eff)%list |}
  end.

Definition call (c : verb_call) (w : world) : world :=
  match c with
  | Get path params opts => request "GET" path params opts w
  | Post path data opts => request "POST" path data opts w
  | Put path data opts => request "PUT" path data opts w
  | Patch path data opts => request "PATCH" path data opts w
  | Delete path opts => request "DELETE" path VNull opts w
  end.

(** One event.  [None]: the event cannot happen in [w] (no such call, the
    call is not suspended there, no timer is armed). *)
Definition step (w : world) (ev : event) : option world :=
  match ev with
  | Call c => Some (call c w)
  | Settle tid s =>
      match tasks w !! tid with
      | Some t =>
          match resume (self w) tid t s with
          | Some (t', eff) =>
              Some {| self := self w; signals := signals w;
                      tasks := <[tid := t']> (tasks w);
                      trace := (trace w ++ eff)%list |}
          | None => None
          end
      | None => None
      end
  | Timeout tid =>
      match tasks w !! tid with
      | Some t =>
          if timeoutId t then
            let w1 := signal_abort (rq_controller (rq t)) w in
            Some {| self := self w1; signals := signals w1;
                    tasks := <[tid := {| rq := rq t; attempt := attempt t;
                                         timeoutId := false; at_ := at_ t |}]> (tasks w1);
                    trace := trace w1 |}
          else None
      | None => None
      end
  | AbortAll => Some (abortAll w)
  | SetToken v => Some (set_self w (set_token (self w) v))
  end.

Definition is_abort (s : settlement) : bool :=
  match s with
  | Rejected err => String.eqb (err_name err) "AbortError"
  | _ => false
  end.

(** The contract of the transport: an [await] on a request whose signal is
    aborted settles by rejecting with an [AbortError]. *)
Definition honours (w : world) (ev : event) : bool :=
  match ev with
  | Settle tid s =>
      match tasks w !! tid with
      | Some t => if aborted w (rq_controller (rq t)) then is_abort s else true
      | None => true
      end
  | _ => true
  end.

Fixpoint run (w : world) (evs : list event) : option world :=
  match evs with
  | [] => Some w
  | ev :: rest =>
      if honours w ev then
        match step w ev with
        | Some w' => run w' rest
        | None => None
        end
      else None
  end.

(** The worlds an instance can be in. *)
Definition reachable (w : world) : Prop :=
  exists root0 options this evs,
    constructor root0 options = inr this /\ run (init this) evs = Some w.

End Machine.

(** ** A small instance of the URL parser

    [simple_URL_new] parses the pairs of an origin [http(s)://host], whose
    host is made of dot-separated labels of lower-case letters, and a path
    that starts with one slash and has only letters, digits, [-], [_] and
    [/]; there the URL standard yields the concatenation, with no query and
    no fragment.  It is a parser for the examples: what it accepts it
    parses as the platform does, and it answers [None] for every other
    pair, also for pairs the platform parses, so that its [None] says
    nothing about the platform and no statement below reads it. *)

Fixpoint strip_prefix (p s : string) : option string :=
  match p, s with
  | EmptyString, _ => Some s
  | String a p', String b s' => if Ascii.eqb a b then strip_prefix p' s' else None
  | _, _ => None
  end.

Definition is_lower (c : ascii) : bool :=
  let n := nat_of_ascii c in ((97 <=? n) && (n <=? 122))%nat.

Fixpoint host_ok (after_dot : bool) (s : string) : bool :=
  match s with
  | EmptyString => negb after_dot
  | String c rest =>
      if is_lower c then host_ok false rest
      else if Ascii.eqb c "."%char && negb after_dot then host_ok true rest
      else false
  end.

Fixpoint path_chars_ok (s : string) : bool :=
  match s with
  | EmptyString => true
  | String c rest =>
      (is_alnum c || Ascii.eqb c "-"%char || Ascii.eqb c "_"%char
       || Ascii.eqb c "/"%char) && path_chars_ok rest
  end.

Definition path_ok (s : string) : bool :=
  match s with
  | String a rest =>
      Ascii.eqb a "/"%char && negb (String.prefix "/" rest) && path_chars_ok rest
  | EmptyString => false
  end.

Definition simple_URL_new (path base : string) : option URL :=
  match
    match strip_prefix "https://" base with
    | Some h => Some h
    | None => strip_prefix "http://" base
    end
  with
  | Some host =>
      if host_ok true host && path_ok path
      then Some (mkURL (base ++ path) None [] None)
      else None
  | None => None
  end.

Definition api_test : SuperFetch :=
  {| token := VNull; root := "https://api.test"; logRequests := false;
     defaultTimeout := 0; defaultRetries := 0; controllers := ∅ |}.

(** ** Vocabulary of the statements *)

Definition method_of (c : verb_call) : string :=
  match c with
  | Get _ _ _ => "GET" | Post _ _ _ => "POST" | Put _ _ _ => "PUT"
  | Patch _ _ _ => "PATCH" | Delete _ _ => "DELETE"
  end.

Definition path_of (c : verb_call) : string :=
  match c with
  | Get p _ _ | Post p _ _ | Put p _ _ | Patch p _ _ | Delete p _ => p
  end.

Definition data_of (c : verb_call) : jsval :=
  match c with
  | Get _ d _ | Post _ d _ | Put _ d _ | Patch _ d _ => d
  | Delete _ _ => VNull
  end.

Definition opts_of (c : verb_call) : RequestOptions :=
  match c with
  | Get _ _ o | Post _ _ o | Put _ _ o | Patch _ _ o | Delete _ o => o
  end.

(** The URL a verb call builds. *)
Definition url_of (URL_new : string -> string -> option URL) (this : SuperFetch)
    (c : verb_call) : error + string :=
  buildUrl URL_new this (path_of c)
    (if String.eqb (method_of c) "GET" then default_null (data_of c) else VNull).



Definition is_fetch_of (tid : nat) (e : effect) : bool :=
  match e with EFetch tid' _ => Nat.eqb tid tid' | _ => false end.

(** The number of [fetch]es a call has dispatched among some effects. *)
Definition dispatches (tid : nat) (eff : list effect) : nat :=
  length (filter (fun e => is_fetch_of tid e = true) eff).

Definition is_throw (e : effect) : bool :=
  match e with EThrow _ => true | _ => false end.

Definition is_abort_effect (e : effect) : bool :=
  match e with EAbort _ => true | _ => false end.

(** The two ways an attempt fails without being cancelled: the transport
    rejects, or it answers with a status outside the success range and the
    text of the answer is read. *)
Inductive failure : Type :=
| NetworkError (err : error)
| BadStatus (r : Response) (body : jsval).

Definition failure_events (tid : nat) (f : failure) : list event :=
  match f with
  | NetworkError err => [Settle tid (Rejected err)]
  | BadStatus r body => [Settle tid (Responded r); Settle tid (BodyRead body)]
  end.

Definition failure_error (f : failure) : error :=
  match f with
  | NetworkError err => err
  | BadStatus r body => request_failed r body
  end.

Definition genuine (f : failure) : Prop :=
  match f with
  | NetworkError err => String.eqb (err_name err) "AbortError" = false
  | BadStatus r _ => ok r = false
  end.

Definition suspended (t : task) : Prop := exists a, at_ t = Suspended a.

Definition cancelled_or_pending (t : task) : Prop :=
  suspended t \/ exists m, at_ t = Returned (Nok m).

(** The invariant of the registry and the store of controllers. *)
Record inv (w : world) : Prop := {
  inv_registry : forall key c,
      controllers (self w) !! key = Some c -> (c < length (signals w))%nat;
  inv_tasks : forall tid t,
      tasks w !! tid = Some t -> (rq_controller (rq t) < length (signals w))%nat;
  inv_live : forall tid t,
      tasks w !! tid = Some t ->
      aborted w (rq_controller (rq t)) = true
      \/ controllers (self w) !! rq_key (rq t) = Some (rq_controller (rq t));
  inv_trace : forall c, signals w !! c = Some true -> In (EAbort c) (trace w)
}.

(** The reading of the cleanup sentence: a call that has returned has no
    entry under its key. *)
Definition removed_on_completion (URL_new : string -> string -> option URL) : Prop :=
  forall w tid t o,
    reachable URL_new w -> tasks w !! tid = Some t -> at_ t = Returned o ->
    controllers (self w) !! rq_key (rq t) = None.

Definition ok_json : Response :=
  {| ok := true; status := 200; statusText := "OK";
     resp_headers := [("content-type", "application/json")] |}.

Definition no_such_page : Response :=
  {| ok := false; status := 404; statusText := "Not Found"; resp_headers := [] |}.

(** The worlds of the examples: the client of [https://api.test] after
    some events. *)
Definition after (evs : list event) : world :=
  match run simple_URL_new (init api_test) evs with
  | Some w => w
  | None => init api_test
  end.

Definition first_world : world :=
  call simple_URL_new (Get "/users" VUndefined no_opts) (init api_test).

Definition first_task : task :=
  {| rq := {| rq_method := "GET"; rq_path := "/users"; rq_data := VNull;
              rq_opts := no_opts; rq_url := "https://api.test/users";
              rq_controller := 0%nat; rq_timeoutMs := 0; rq_attempts := 1 |};
     attempt := 0; timeoutId := false; at_ := Suspended AwaitFetch |}.

Definition twice_more : verb_call :=
  Get "/users" VUndefined
    {| opt_token := VUndefined; opt_timeout := None; opt_log := false;
       opt_retries := Some 2; opt_headers := None |}.

Definition two_failures : list failure :=
  [NetworkError (Error "TypeError" "Failed to fetch");
   BadStatus no_such_page (VStr "missing")].

Definition last_failure : failure :=
  NetworkError (Error "TypeError" "Failed to fetch").

(** ** Auxiliary notions of the proofs *)


(** The effects that are log lines. *)
Definition quiet (e : effect) : Prop :=
  match e with ELog _ _ _ _ => True | _ => False end.

(** The flags after aborting the controllers [cs]. *)
Definition mark (cs : list nat) (s : list bool) : list bool :=
  foldr (fun c s' => <[c := true]> s') s cs.

(** The frame of a call issued in [w] whose URL is [url]. *)
Definition new_frame (w : world) (method path : string) (data : jsval)
    (opts : RequestOptions) (url : string) : frame :=
  {| rq_method := method; rq_path := path; rq_data := default_null data;
     rq_opts := opts; rq_url := url; rq_controller := length (signals w);
     rq_timeoutMs := nullish (opt_timeout opts) (defaultTimeout (self w));
     rq_attempts := 1 + nullish (opt_retries opts) (defaultRetries (self w)) |}.

(** The effects of superseding the holder of [key], if any. *)
Definition superseded (w : world) (key : string) : list effect :=
  match controllers (self w) !! key with
  | Some c => [EAbort c]
  | None => []
  end.

(** The call [tid] with frame [f] waits for the [fetch] of its attempt
    [k], its controller untouched. *)
Definition fetching (w : world) (tid : nat) (f : frame) (k : Z) : Prop :=
  tasks w !! tid
  = Some {| rq := f; attempt := k; timeoutId := 0 <? rq_timeoutMs f;
            at_ := Suspended AwaitFetch |}
  /\ aborted w (rq_controller f) = false.

(** ** Data of the examples *)

Definition with_token : SuperFetch := set_token api_test (VStr "instance-token").

Definition override_frame : frame :=
  {| rq_method := "POST"; rq_path := "/users";
     rq_data := VObj [("name", VStr "ada")];
     rq_opts := {| opt_token := VStr "call-token"; opt_timeout := None;
                   opt_log := false; opt_retries := None;
                   opt_headers := Some [("Content-Type", VStr "text/xml")] |};
     rq_url := "https://api.test/users"; rq_controller := 0%nat;
     rq_timeoutMs := 0; rq_attempts := 1 |}.

Definition empty_token_frame : frame :=
  {| rq_method := "DELETE"; rq_path := "/users"; rq_data := VNull;
     rq_opts := {| opt_token := VStr ""; opt_timeout := None; opt_log := false;
                   opt_retries := None; opt_headers := None |};
     rq_url := "https://api.test/users"; rq_controller := 0%nat;
     rq_timeoutMs := 0; rq_attempts := 1 |}.

(** ** Runs with any transport *)

(** The events one after the other, the transport free to answer what it
    likes. *)
Fixpoint play (URL_new : string -> string -> option URL) (w : world)
    (evs : list event) : option world :=
  match evs with
  | [] => Some w
  | ev :: rest =>
      match step URL_new w ev with
      | Some w' => play URL_new w' rest
      | None => None
      end
  end.

(** The worlds an instance can be in, whatever the transport does. *)
Definition attainable (URL_new : string -> string -> option URL) (w : world) : Prop :=
  exists root0 options this evs,
    constructor root0 options = inr this /\ play URL_new (init this) evs = Some w.

(** Of two calls made for one key the earlier one is aborted. *)
Definition ordered (w : world) : Prop :=
  forall i j t t',
    (i < j)%nat -> tasks w !! i = Some t -> tasks w !! j = Some t' ->
    rq_key (rq t) = rq_key (rq t') ->
    aborted w (rq_controller (rq t)) = true.

(** An attempt that fails in any way: the transport rejects, with a
    network error or with the cancellation, or it answers with a status
    outside the success range. *)
Definition failing (f : failure) : Prop :=
  match f with
  | NetworkError _ => True
  | BadStatus r _ => ok r = false
  end.

(** The sentence on the constructor, for a reading [P] of its words
    "a string matching an absolute HTTP(S) URL": the constructor throws
    exactly when the base is not a non-empty string that [P] holds of. *)
Definition throws_exactly_when (P : string -> bool) : Prop :=
  forall root0 options,
    (exists e, constructor root0 options = inl e)
    <-> ~ (exists s, root0 = VStr s /\ s <> "" /\ P s = true).

(** ** Bookkeeping of the calls *)

(** The registry key of a verb call whose URL is [url]. *)
Definition key_of (c : verb_call) (url : string) : string :=
  method_of c ++ "::" ++ url.

(** Logging is on for a call: globally, or forced by the call. *)
Definition logging (this : SuperFetch) (f : frame) : bool :=
  logRequests this || opt_log (rq_opts f).

Definition is_log (e : effect) : bool :=
  match e with ELog _ _ _ _ => true | _ => false end.

(** What the calls, the registry and the trace have to do with each other:
    no two calls share a controller; a registered controller is
    registered under the key of the call it was made for; a timer is armed
    only while its call waits for a [fetch], and only for a positive
    timeout; every [fetch] in the trace carries the URL, method and
    signal of its call; and a call whose loop ran has dispatched one
    [fetch] per attempt begun, within its budget, while a call whose loop
    did not run has returned [undefined] without a [fetch]. *)
Record accounted (w : world) : Prop := {
  acc_unique : forall i j t t',
      tasks w !! i = Some t -> tasks w !! j = Some t' ->
      rq_controller (rq t) = rq_controller (rq t') -> i = j;
  acc_owner : forall key c tid t,
      controllers (self w) !! key = Some c -> tasks w !! tid = Some t ->
      rq_controller (rq t) = c -> rq_key (rq t) = key;
  acc_timer : forall tid t,
      tasks w !! tid = Some t -> timeoutId t = true ->
      at_ t = Suspended AwaitFetch /\ 0 < rq_timeoutMs (rq t);
  acc_fetch : forall tid f,
      In (EFetch tid f) (trace w) ->
      exists t, tasks w !! tid = Some t
                /\ f_url f = rq_url (rq t) /\ f_method f = rq_method (rq t)
                /\ f_signal f = rq_controller (rq t);
  acc_budget : forall tid t,
      tasks w !! tid = Some t ->
      if 0 <? rq_attempts (rq t)
      then 0 <= attempt t < rq_attempts (rq t)
           /\ dispatches tid (trace w) = Z.to_nat (attempt t + 1)
      else at_ t = Returned NoValue /\ dispatches tid (trace w) = 0%nat
}.

(** A client of [https://api.test] with a default timeout and retries. *)
Definition patient : SuperFetch :=
  {| token := VNull; root := "https://api.test"; logRequests := true;
     defaultTimeout := 5000; defaultRetries := 3; controllers := ∅ |}.

Definition patient_options : SuperFetchOptions :=
  {| cfg_token := VUndefined; cfg_logRequests := true;
     cfg_timeout := Some 5000; cfg_retries := Some 3 |}.

Definition patient_world : world :=
  call simple_URL_new (Post "/users" (VObj [("name", VStr "ada")]) no_opts)
       (init patient).

Definition patient_frame : frame :=
  {| rq_method := "POST"; rq_path := "/users";
     rq_data := VObj [("name", VStr "ada")]; rq_opts := no_opts;
     rq_url := "https://api.test/users"; rq_controller := 0%nat;
     rq_timeoutMs := 5000; rq_attempts := 4 |}.

Definition patient_task : task :=
  {| rq := patient_frame; attempt := 0; timeoutId := true;
     at_ := Suspended AwaitFetch |}.

(** The event assigns the token. *)
Definition sets_token (ev : event) : bool :=
  match ev with SetToken _ => true | _ => false end.

Definition patient_after (evs : list event) : world :=
  match run simple_URL_new (init patient) evs with
  | Some w => w
  | None => init patient
  end.

Definition post_ada : verb_call :=
  Post "/users" (VObj [("name", VStr "ada")]) no_opts.

Definition get_users : verb_call := Get "/users" VUndefined no_opts.

Definition no_attempts : verb_call :=
  Get "/users" VUndefined
    {| opt_token := VUndefined; opt_timeout := None; opt_log := false;
       opt_retries := Some (-1); opt_headers := None |}.

Definition failed_to_fetch : error := Error "TypeError" "Failed to fetch".

Definition bad_json : error := Error "SyntaxError" "Unexpected end of JSON input".

(** The worlds of the examples when the transport is not held to its
    contract. *)
Definition played (this : SuperFetch) (evs : list event) : world :=
  match play simple_URL_new (init this) evs with
  | Some w => w
  | None => init this
  end.

(** The second of two calls of [get_users]. *)
Definition second_task : task :=
  {| rq := {| rq_method := "GET"; rq_path := "/users"; rq_data := VNull;
              rq_opts := no_opts; rq_url := "https://api.test/users";
              rq_controller := 1%nat; rq_timeoutMs := 0; rq_attempts := 1 |};
     attempt := 0; timeoutId := false; at_ := Suspended AwaitFetch |}.

(** A transport that ignores the signal: the call is aborted, and its
    [fetch] rejects with a network error all the same. *)
Definition deaf_transport : list event :=
  [Call twice_more; AbortAll; Settle 0 (Rejected failed_to_fetch)].

Definition deaf_task : task :=
  {| rq := {| rq_method := "GET"; rq_path := "/users"; rq_data := VNull;
              rq_opts := opts_of twice_more; rq_url := "https://api.test/users";
              rq_controller := 0%nat; rq_timeoutMs := 0; rq_attempts := 3 |};
     attempt := 1; timeoutId := false; at_ := Suspended AwaitFetch |}.

(** A call of the patient client whose first attempt failed. *)
Definition one_retry : list event :=
  [Call post_ada; Settle 0 (Rejected failed_to_fetch)].

(** * Facts *)

Example ToString_nested :
  ToString (VArr [VNum 1; VArr [VNum 2; VNum (-3)]; VNull; VStr "x"]) = "1,2,-3,,x".
Proof. reflexivity. Qed.

Example JSON_stringify_obj :
  JSON_stringify (VObj [("id", VArr [VNum 1; VNum 2]); ("u", VUndefined)])
  = Some ("{" ++ json_quote "id" ++ ":[1,2]}").
Proof. reflexivity. Qed.

(** ** Objects and the spread operator *)

Module ObjectFacts.

Lemma obj_get_set k k' o v :
  obj_get k (obj_set o k' v) = if String.eqb k k' then Some v else obj_get k o.
Proof.
  induction o as [|[k0 v0] o IH]; simpl.
  - reflexivity.
  - destruct (String.eqb_spec k' k0) as [->|Hne]; simpl.
    + destruct (String.eqb_spec k k0); reflexivity.
    + rewrite IH. destruct (String.eqb_spec k k0) as [->|]; [|reflexivity].
      destruct (String.eqb_spec k0 k'); congruence.
Qed.

Lemma obj_get_None_not_in k (o : object) :
  obj_get k o = None <-> ~ In k (map fst o).
Proof.
  induction o as [|[k0 v0] o IH]; simpl.
  - tauto.
  - destruct (String.eqb_spec k k0) as [->|Hne].
    + split; [discriminate | tauto].
    + rewrite IH. split; [intros H [E|I]; congruence | tauto].
Qed.

(** Copying [src] over [o] leaves the properties [src] does not have. *)
Lemma obj_get_spread_None k o src :
  obj_get k src = None -> obj_get k (spread o src) = obj_get k o.
Proof.
  unfold spread. revert o.
  induction src as [|[k0 v0] src IH]; intros o H; simpl in *.
  - reflexivity.
  - destruct (String.eqb_spec k k0) as [->|Hne]; [discriminate|].
    rewrite IH by assumption. rewrite obj_get_set.
    destruct (String.eqb_spec k k0); congruence.
Qed.

(** ... and takes the others from [src]. *)
Lemma obj_get_spread k o src :
  wf_object src ->
  obj_get k (spread o src)
  = match obj_get k src with Some v => Some v | None => obj_get k o end.
Proof.
  unfold spread, wf_object. revert o.
  induction src as [|[k0 v0] src IH]; intros o Hwf; simpl in *.
  - reflexivity.
  - apply NoDup_cons in Hwf as [Hnotin Hwf].
    destruct (String.eqb_spec k k0) as [->|Hne].
    + assert (Hnone : obj_get k0 src = None).
      { apply obj_get_None_not_in. intros HI. apply Hnotin.
        apply list_elem_of_In. exact HI. }
      pose proof (obj_get_spread_None k0 (obj_set o k0 v0) src Hnone) as E.
      unfold spread in E. rewrite E, obj_get_set, String.eqb_refl. reflexivity.
    + rewrite IH by assumption. rewrite obj_get_set.
      destruct (String.eqb_spec k k0); [congruence|reflexivity].
Qed.

Lemma keys_obj_set (o : object) k v :
  map fst (obj_set o k v)
  = match obj_get k o with
    | Some _ => map fst o
    | None => (map fst o ++ [k])%list
    end.
Proof.
  induction o as [|[k0 v0] o IH]; simpl.
  - reflexivity.
  - destruct (String.eqb_spec k k0) as [->|Hne]; simpl.
    + reflexivity.
    + rewrite IH. destruct (obj_get k o); reflexivity.
Qed.

Lemma wf_obj_set o k v : wf_object o -> wf_object (obj_set o k v).
Proof.
  unfold wf_object. intros Hwf. rewrite keys_obj_set.
  destruct (obj_get k o) eqn:E.
  - exact Hwf.
  - apply NoDup_app. split; [exact Hwf|]. split.
    + intros x Hx Hk. apply list_elem_of_singleton in Hk. subst x.
      apply obj_get_None_not_in in E. apply E. apply list_elem_of_In. exact Hx.
    + apply NoDup_singleton.
Qed.

Lemma wf_spread o src : wf_object o -> wf_object (spread o src).
Proof.
  unfold spread. revert o.
  induction src as [|[k v] src IH]; intros o Hwf; simpl.
  - exact Hwf.
  - apply IH. apply wf_obj_set. exact Hwf.
Qed.

Lemma wf_empty : wf_object [].
Proof. apply NoDup_nil_2. Qed.

Lemma wf_bearer t : wf_object (bearer t).
Proof.
  unfold wf_object, bearer. destruct (truthy t); simpl.
  - apply NoDup_singleton.
  - apply NoDup_nil_2.
Qed.

Lemma obj_get_bearer k t :
  obj_get k (bearer t)
  = if String.eqb k "Authorization" && truthy t
    then Some (VStr ("Bearer " ++ ToString t)) else None.
Proof.
  unfold bearer. destruct (truthy t); simpl.
  - destruct (String.eqb k "Authorization"); reflexivity.
  - rewrite andb_false_r. reflexivity.
Qed.

(** The lookup in [{ ...a, ...b, ...c }] over a base object. *)
Lemma obj_get_headers this opts k :
  wf_object (nullish (opt_headers opts) []) ->
  obj_get k (headers this opts)
  = match obj_get k (nullish (opt_headers opts) []) with
    | Some v => Some v
    | None =>
        if String.eqb k "Authorization" then
          if truthy (opt_token opts)
          then Some (VStr ("Bearer " ++ ToString (opt_token opts)))
          else if truthy (token this)
               then Some (VStr ("Bearer " ++ ToString (token this)))
               else None
        else None
    end.
Proof.
  intros Hwf. unfold headers.
  rewrite obj_get_spread by exact Hwf.
  destruct (obj_get k (nullish (opt_headers opts) [])); [reflexivity|].
  rewrite !obj_get_spread by apply wf_bearer.
  rewrite !obj_get_bearer. simpl.
  destruct (String.eqb k "Authorization"); simpl; [|reflexivity].
  destruct (truthy (opt_token opts)); [reflexivity|].
  destruct (truthy (token this)); reflexivity.
Qed.

Lemma wf_headers this opts : wf_object (headers this opts).
Proof. unfold headers. do 3 apply wf_spread. apply wf_empty. Qed.

End ObjectFacts.
Import ObjectFacts.

(** ** Request headers *)

(** C9. The headers of a dispatched request are looked up, in this order,
    in the per-call custom headers, then in the [Authorization] header of
    the per-call token, then in that of the instance token, then in the
    computed [Content-Type]: a per-call token replaces the instance
    token's header, and a custom header replaces the computed
    [Content-Type]. *)
Theorem request_headers_precedence (this : SuperFetch) (f : frame) (name : string) :
  wf_object (nullish (opt_headers (rq_opts f)) []) ->
  obj_get name (f_headers (fetch_args this f))
  = match obj_get name (nullish (opt_headers (rq_opts f)) []) with
    | Some v => Some v
    | None =>
        if String.eqb name "Authorization" then
          if truthy (opt_token (rq_opts f))
          then Some (VStr ("Bearer " ++ ToString (opt_token (rq_opts f))))
          else if truthy (token this)
               then Some (VStr ("Bearer " ++ ToString (token this)))
               else None
        else if String.eqb name "Content-Type"
             then Some (fst (content (rq_data f)))
             else None
    end.
Proof.
  intros Hwf. simpl. unfold requestHeaders.
  rewrite obj_get_spread by apply wf_headers.
  rewrite obj_get_headers by exact Hwf.
  destruct (obj_get name (nullish (opt_headers (rq_opts f)) [])); [reflexivity|].
  destruct (String.eqb_spec name "Authorization") as [->|Hne].
  - destruct (truthy (opt_token (rq_opts f))); [reflexivity|].
    destruct (truthy (token this)); reflexivity.
  - simpl. destruct (String.eqb name "Content-Type"); reflexivity.
Qed.

Lemma request_headers_precedence_witness :
  wf_object (nullish (opt_headers (rq_opts override_frame)) [])
  /\ obj_get "Authorization" (f_headers (fetch_args with_token override_frame))
     = Some (VStr "Bearer call-token")
  /\ obj_get "Content-Type" (f_headers (fetch_args with_token override_frame))
     = Some (VStr "text/xml").
Proof.
  assert (Hwf : wf_object (nullish (opt_headers (rq_opts override_frame)) [])).
  { unfold wf_object. simpl. apply NoDup_singleton. }
  split; [exact Hwf|]. split.
  - rewrite (request_headers_precedence with_token override_frame "Authorization" Hwf).
    reflexivity.
  - rewrite (request_headers_precedence with_token override_frame "Content-Type" Hwf).
    reflexivity.
Defined.

(** C10. A falsy per-call token (the empty string, [null], [undefined],
    [0], [false]) does not clear the authorization: the header of a truthy
    instance token is still sent.  A client constructed with the empty
    string as its token stores [null] and, without a per-call token, sends
    no [Authorization] header.  (Both for calls whose custom headers do
    not name [Authorization] themselves.) *)
Theorem falsy_token_is_ignored :
  (forall this f,
      truthy (opt_token (rq_opts f)) = false ->
      truthy (token this) = true ->
      obj_get "Authorization" (nullish (opt_headers (rq_opts f)) []) = None ->
      obj_get "Authorization" (f_headers (fetch_args this f))
      = Some (VStr ("Bearer " ++ ToString (token this))))
  /\ (forall root0 options this,
         cfg_token options = VStr "" ->
         constructor root0 options = inr this ->
         token this = VNull
         /\ forall f,
             truthy (opt_token (rq_opts f)) = false ->
             obj_get "Authorization" (nullish (opt_headers (rq_opts f)) []) = None ->
             obj_get "Authorization" (f_headers (fetch_args this f)) = None).
Proof.
  assert (Hauth : forall this f,
             obj_get "Authorization" (nullish (opt_headers (rq_opts f)) []) = None ->
             obj_get "Authorization" (f_headers (fetch_args this f))
             = if truthy (opt_token (rq_opts f))
               then Some (VStr ("Bearer " ++ ToString (opt_token (rq_opts f))))
               else if truthy (token this)
                    then Some (VStr ("Bearer " ++ ToString (token this)))
                    else None).
  { intros this f Hnone. simpl. unfold requestHeaders.
    rewrite obj_get_spread by apply wf_headers. unfold headers.
    rewrite (obj_get_spread_None _ _ _ Hnone).
    rewrite !obj_get_spread by apply wf_bearer.
    rewrite !obj_get_bearer. simpl.
    destruct (truthy (opt_token (rq_opts f))); [reflexivity|].
    destruct (truthy (token this)); reflexivity. }
  split.
  - intros this f Hcall Hinst Hnone.
    rewrite Hauth by exact Hnone. rewrite Hcall, Hinst. reflexivity.
  - intros root0 options this Htok Hnew.
    unfold constructor in Hnew.
    destruct (negb (truthy root0) || negb (typeof_string root0)
              || negb (root_regex_test (ToString root0))); [discriminate|].
    injection Hnew as <-. split; [simpl; rewrite Htok; reflexivity|].
    intros f Hcall Hnone. rewrite Hauth by exact Hnone.
    rewrite Hcall. simpl. rewrite Htok. reflexivity.
Qed.

Lemma falsy_token_is_ignored_witness :
  obj_get "Authorization" (f_headers (fetch_args with_token empty_token_frame))
  = Some (VStr "Bearer instance-token")
  /\ obj_get "Authorization" (f_headers (fetch_args api_test empty_token_frame))
     = None.
Proof.
  split.
  - apply (proj1 falsy_token_is_ignored with_token empty_token_frame);
      reflexivity.
  - apply (proj2 falsy_token_is_ignored (VStr "https://api.test")
             {| cfg_token := VStr ""; cfg_logRequests := false;
                cfg_timeout := None; cfg_retries := None |} api_test);
      reflexivity.
Defined.

(** ** URL construction *)

Module UrlFacts.








End UrlFacts.
Import UrlFacts.



(** ** The retry loop, one settlement at a time *)

Module LoopFacts.

Lemma log_quiet this f st k : Forall quiet (log this f st k).
Proof.
  unfold log. destruct (negb (logRequests this) && negb (opt_log (rq_opts f)));
    repeat constructor.
Qed.

Lemma quiet_no_fetch tid eff : Forall quiet eff -> dispatches tid eff = 0%nat.
Proof.
  unfold dispatches. induction 1 as [|e eff He _ IH]; [reflexivity|].
  destruct e; try contradiction. rewrite filter_cons_False; [exact IH|].
  simpl. discriminate.
Qed.

Lemma quiet_no_throw eff : Forall quiet eff -> Forall (fun e => is_throw e = false) eff.
Proof.
  intros H. eapply Forall_impl; [exact H|].
  intros [] Hq; try contradiction; reflexivity.
Qed.

Lemma dispatches_app tid e1 e2 :
  dispatches tid (e1 ++ e2) = (dispatches tid e1 + dispatches tid e2)%nat.
Proof. unfold dispatches. rewrite filter_app, length_app. reflexivity. Qed.

Lemma dispatches_fetch tid f : dispatches tid [EFetch tid f] = 1%nat.
Proof.
  unfold dispatches. rewrite filter_cons_True; [reflexivity|].
  simpl. apply Nat.eqb_refl.
Qed.

(** The loop test. *)
Lemma enter_loop_cases this tid f k :
  (k < rq_attempts f
   /\ enter_loop this tid f k
      = ({| rq := f; attempt := k; timeoutId := 0 <? rq_timeoutMs f;
            at_ := Suspended AwaitFetch |}, [EFetch tid (fetch_args this f)]))
  \/ (rq_attempts f <= k
      /\ enter_loop this tid f k
         = ({| rq := f; attempt := k; timeoutId := false;
               at_ := Returned NoValue |}, [])).
Proof.
  unfold enter_loop. destruct (Z.ltb_spec k (rq_attempts f)); [left|right]; auto.
Qed.

(** The three ways out of the [catch] block. *)
Lemma catch_cases this tid t err :
  (String.eqb (err_name err) "AbortError" = true
   /\ catch this tid t err
      = ({| rq := rq t; attempt := attempt t; timeoutId := false;
            at_ := Returned (Nok (err_message err)) |},
         log this (rq t) "ABORT" (attempt t)))
  \/ (String.eqb (err_name err) "AbortError" = false
      /\ attempt t < rq_attempts (rq t) - 1
      /\ catch this tid t err
         = ({| rq := rq t; attempt := attempt t + 1;
               timeoutId := 0 <? rq_timeoutMs (rq t);
               at_ := Suspended AwaitFetch |},
            (log this (rq t) "RETRY" (attempt t)
             ++ [EFetch tid (fetch_args this (rq t))])%list))
  \/ (String.eqb (err_name err) "AbortError" = false
      /\ rq_attempts (rq t) - 1 <= attempt t
      /\ catch this tid t err
         = ({| rq := rq t; attempt := attempt t; timeoutId := false;
               at_ := Returned (Nok (err_message err)) |},
            log this (rq t) "ERROR" (attempt t))).
Proof.
  unfold catch. destruct (String.eqb (err_name err) "AbortError").
  - left. auto.
  - right. destruct (Z.ltb_spec (attempt t) (rq_attempts (rq t) - 1)) as [Hlt|Hge].
    + left. split; [reflexivity|]. split; [exact Hlt|].
      destruct (enter_loop_cases this tid (rq t) (attempt t + 1)) as [[_ ->]|[Hle _]].
      * reflexivity.
      * lia.
    + right. auto.
Qed.

(** What a settlement makes of a call, whatever it is: the call keeps its
    frame, emits no throw and no abort, and is suspended again or has
    returned a payload or a failure object. *)
Lemma catch_summary this tid t err t' eff :
  catch this tid t err = (t', eff) ->
  rq t' = rq t
  /\ Forall (fun e => is_throw e = false /\ is_abort_effect e = false) eff
  /\ (at_ t' = Suspended AwaitFetch \/ at_ t' = Returned (Nok (err_message err))).
Proof.
  intros H.
  assert (Hlog : forall st k,
             Forall (fun e => is_throw e = false /\ is_abort_effect e = false)
                    (log this (rq t) st k)).
  { intros st k. eapply Forall_impl; [apply log_quiet|].
    intros [] Hq; try contradiction. split; reflexivity. }
  destruct (catch_cases this tid t err) as [[_ E]|[[_ [_ E]]|[_ [_ E]]]];
    rewrite E in H; injection H as <- <-; simpl.
  - split; [reflexivity|]. split; [apply Hlog | right; reflexivity].
  - split; [reflexivity|]. split; [|left; reflexivity].
    apply Forall_app. split; [apply Hlog|]. repeat constructor.
  - split; [reflexivity|]. split; [apply Hlog | right; reflexivity].
Qed.

Lemma resume_summary this tid t s t' eff :
  resume this tid t s = Some (t', eff) ->
  suspended t
  /\ rq t' = rq t
  /\ Forall (fun e => is_throw e = false /\ is_abort_effect e = false) eff
  /\ (suspended t' \/ (exists v, at_ t' = Returned (Payload v))
      \/ (exists m, at_ t' = Returned (Nok m))).
Proof.
  unfold resume, suspended. intros H.
  destruct (at_ t) as [a|o] eqn:Hat; [|destruct s; discriminate].
  split; [eauto|].
  assert (Hc : forall t0 err, rq t0 = rq t -> catch this tid t0 err = (t', eff) ->
      rq t' = rq t
      /\ Forall (fun e => is_throw e = false /\ is_abort_effect e = false) eff
      /\ ((exists a', at_ t' = Suspended a') \/ (exists v, at_ t' = Returned (Payload v))
          \/ (exists m, at_ t' = Returned (Nok m)))).
  { intros t0 err Hrq Hcatch.
    destruct (catch_summary _ _ _ _ _ _ Hcatch) as (E1 & E2 & [E3|E3]).
    - split; [congruence|]. split; [exact E2|]. left. eauto.
    - split; [congruence|]. split; [exact E2|]. right. right. eauto. }
  destruct s as [r|v|err].
  - destruct a; try discriminate. injection H as <- <-. simpl.
    split; [reflexivity|]. split; [constructor|]. left. eauto.
  - destruct a as [|r|r k]; try discriminate.
    + injection H as H. eapply Hc; [|exact H]. reflexivity.
    + injection H as <- <-. simpl. split; [reflexivity|]. split.
      * eapply Forall_impl; [apply log_quiet|].
        intros [] Hq; try contradiction. split; reflexivity.
      * right. left. eauto.
  - destruct a; injection H as H; (eapply Hc; [|exact H]); reflexivity.
Qed.

End LoopFacts.
Import LoopFacts.

(** ** The registry and the store of controllers *)

Module StoreFacts.

Lemma mark_length cs s : length (mark cs s) = length s.
Proof.
  induction cs as [|c cs IH]; simpl; [reflexivity|].
  rewrite length_insert. exact IH.
Qed.

Lemma insert_true_mono (s : list bool) c i :
  s !! i = Some true -> <[c := true]> s !! i = Some true.
Proof.
  intros H. destruct (decide (c = i)) as [->|Hne].
  - apply list_lookup_insert_eq. eapply lookup_lt_Some. exact H.
  - rewrite list_lookup_insert_ne by exact Hne. exact H.
Qed.

Lemma insert_true_inv (s : list bool) c i :
  <[c := true]> s !! i = Some true -> s !! i = Some true \/ i = c.
Proof.
  destruct (decide (c = i)) as [->|Hne]; [auto|].
  rewrite list_lookup_insert_ne by exact Hne. auto.
Qed.

Lemma mark_mono cs (s : list bool) i :
  s !! i = Some true -> mark cs s !! i = Some true.
Proof.
  intros H. induction cs as [|c cs IH]; simpl; [exact H|].
  apply insert_true_mono. exact IH.
Qed.

Lemma mark_in cs (s : list bool) i :
  i ∈ cs -> (i < length s)%nat -> mark cs s !! i = Some true.
Proof.
  intros Hin Hlt. induction cs as [|c cs IH]; simpl.
  - inversion Hin.
  - apply elem_of_cons in Hin as [->|Hin].
    + apply list_lookup_insert_eq. rewrite mark_length. exact Hlt.
    + apply insert_true_mono. apply IH. exact Hin.
Qed.

Lemma mark_inv cs (s : list bool) i :
  mark cs s !! i = Some true -> s !! i = Some true \/ i ∈ cs.
Proof.
  induction cs as [|c cs IH]; simpl; [auto|].
  intros H. apply insert_true_inv in H as [H| ->].
  - destruct (IH H); [auto|]. right. apply elem_of_cons. auto.
  - right. apply elem_of_cons. auto.
Qed.

Lemma foldr_signal_abort w cs :
  foldr signal_abort w cs
  = {| self := self w; signals := mark cs (signals w); tasks := tasks w;
       trace := (trace w ++ map EAbort (rev cs))%list |}.
Proof.
  induction cs as [|c cs IH]; simpl.
  - rewrite app_nil_r. destruct w; reflexivity.
  - rewrite IH. unfold signal_abort. simpl.
    rewrite map_app, <- List.app_assoc. reflexivity.
Qed.

(** [#abort(key)], field by field. *)
Lemma abort_spec key w :
  abort key w
  = {| self := set_controllers (self w) (delete key (controllers (self w)));
       signals := match controllers (self w) !! key with
                  | Some c => <[c := true]> (signals w)
                  | None => signals w
                  end;
       tasks := tasks w;
       trace := (trace w ++ match controllers (self w) !! key with
                            | Some c => [EAbort c]
                            | None => []
                            end)%list |}.
Proof.
  unfold abort. destruct (controllers (self w) !! key) eqn:E.
  - reflexivity.
  - rewrite delete_id by exact E. rewrite app_nil_r.
    destruct w as [[] ? ? ?]; reflexivity.
Qed.

(** [#createAbortController(key)], field by field. *)
Lemma createAbortController_spec key w :
  createAbortController key w
  = ({| self := set_controllers (self w)
                  (<[key := length (signals w)]> (controllers (self w)));
        signals := (match controllers (self w) !! key with
                    | Some c => <[c := true]> (signals w)
                    | None => signals w
                    end ++ [false])%list;
        tasks := tasks w;
        trace := (trace w ++ match controllers (self w) !! key with
                             | Some c => [EAbort c]
                             | None => []
                             end)%list |},
     length (signals w)).
Proof.
  unfold createAbortController. rewrite abort_spec. simpl.
  assert (El : length (match controllers (self w) !! key with
                       | Some c => <[c := true]> (signals w)
                       | None => signals w
                       end) = length (signals w)).
  { destruct (controllers (self w) !! key); [apply length_insert|reflexivity]. }
  rewrite El. unfold set_controllers. simpl. rewrite insert_delete_eq.
  reflexivity.
Qed.

Lemma abortAll_spec w :
  abortAll w
  = {| self := set_controllers (self w) ∅;
       signals := mark (snd <$> map_to_list (controllers (self w))) (signals w);
       tasks := tasks w;
       trace := (trace w
                 ++ map EAbort (rev (snd <$> map_to_list (controllers (self w)))))%list |}.
Proof. unfold abortAll. rewrite foldr_signal_abort. reflexivity. Qed.

Lemma registered_in_values (m : gmap string nat) key c :
  m !! key = Some c -> c ∈ (snd <$> map_to_list m).
Proof.
  intros H. apply list_elem_of_fmap. exists (key, c). split; [reflexivity|].
  apply elem_of_map_to_list. exact H.
Qed.

Lemma aborted_true w c : aborted w c = true <-> signals w !! c = Some true.
Proof.
  unfold aborted. destruct (signals w !! c) as [[]|]; split; congruence.
Qed.

End StoreFacts.
Import StoreFacts.

(** ** Steps of the machine *)

Section MachineFacts.

Variable URL_new : string -> string -> option URL.

Lemma call_request c w :
  call URL_new c w = request URL_new (method_of c) (path_of c) (data_of c) (opts_of c) w.
Proof. destruct c; reflexivity. Qed.

(** [#request] up to its first [await], field by field. *)
Lemma request_spec method path data opts url w :
  buildUrl URL_new (self w) path (if String.eqb method "GET" then default_null data else VNull)
  = inr url ->
  let f := new_frame w method path data opts url in
  let te := enter_loop (self w) (length (tasks w)) f 0 in
  request URL_new method path data opts w
  = {| self := set_controllers (self w)
                 (<[rq_key f := length (signals w)]> (controllers (self w)));
       signals := (match controllers (self w) !! rq_key f with
                   | Some c => <[c := true]> (signals w)
                   | None => signals w
                   end ++ [false])%list;
       tasks := (tasks w ++ [fst te])%list;
       trace := (trace w ++ superseded w (rq_key f) ++ snd te)%list |}.
Proof.
  intros Hurl f te. unfold request. rewrite Hurl.
  rewrite createAbortController_spec. cbn [self signals tasks trace].
  subst te f. unfold new_frame, rq_key, superseded. cbn [rq_method rq_url].
  unfold enter_loop. cbn [rq_attempts rq_timeoutMs].
  unfold set_controllers at 1 2. cbn [defaultTimeout defaultRetries].
  destruct (0 <? 1 + nullish (opt_retries opts) (defaultRetries (self w)));
    cbn [fst snd]; rewrite <- List.app_assoc; reflexivity.
Qed.

Lemma request_throws method path data opts e w :
  buildUrl URL_new (self w) path (if String.eqb method "GET" then default_null data else VNull)
  = inl e ->
  request URL_new method path data opts w = emit w [EThrow e].
Proof. intros H. unfold request. rewrite H. reflexivity. Qed.

Lemma step_settle w tid s w' :
  step URL_new w (Settle tid s) = Some w' ->
  exists t t' eff,
    tasks w !! tid = Some t /\ resume (self w) tid t s = Some (t', eff)
    /\ w' = {| self := self w; signals := signals w;
               tasks := <[tid := t']> (tasks w);
               trace := (trace w ++ eff)%list |}.
Proof.
  unfold step. destruct (tasks w !! tid) as [t|]; [|discriminate].
  destruct (resume (self w) tid t s) as [[t' eff]|] eqn:E; [|discriminate].
  intros H. injection H as <-. exists t, t', eff. auto.
Qed.

Lemma step_timeout w tid w' :
  step URL_new w (Timeout tid) = Some w' ->
  exists t,
    tasks w !! tid = Some t /\ timeoutId t = true
    /\ w' = {| self := self w;
               signals := <[rq_controller (rq t) := true]> (signals w);
               tasks := <[tid := {| rq := rq t; attempt := attempt t;
                                    timeoutId := false; at_ := at_ t |}]> (tasks w);
               trace := (trace w ++ [EAbort (rq_controller (rq t))])%list |}.
Proof.
  unfold step. destruct (tasks w !! tid) as [t|]; [|discriminate].
  destruct (timeoutId t) eqn:E; [|discriminate].
  intros H. injection H as <-. exists t. auto.
Qed.

End MachineFacts.

(** ** Failures are values *)

Section Outcomes.

Variable URL_new : string -> string -> option URL.

Lemma constructor_throws_iff root0 options :
  (exists e, constructor root0 options = inl e)
  <-> ~ (exists s, root0 = VStr s /\ s <> ""
                   /\ (String.prefix "http://" s = true
                       \/ String.prefix "https://" s = true)).
Proof.
  unfold constructor.
  destruct root0 as [| |b|n|s|items|props|fields|ty bytes];
    try (cbn [typeof_string negb]; rewrite orb_true_r; cbn [orb]; split;
         [intros _ (s0 & E & _); discriminate | intros _; eexists; reflexivity]).
  cbn [truthy typeof_string ToString negb orb]. unfold root_regex_test.
  destruct (String.eqb_spec s "") as [->|Hne]; cbn [negb orb].
  - split; [|intros _; eexists; reflexivity].
    intros _ (s0 & E & Hs & _). injection E as <-. congruence.
  - destruct (String.prefix "http://" s) eqn:E1;
      destruct (String.prefix "https://" s) eqn:E2; cbn [negb orb];
      (split; [intros [e He]; try discriminate|intros Hn]).
    1-3: exfalso; apply Hn; exists s; auto.
    + intros (s0 & E & _ & [H|H]); injection E as <-; congruence.
    + eexists; reflexivity.
Qed.

Lemma step_effects w ev w' :
  step URL_new w ev = Some w' ->
  (forall c, ev = Call c -> exists url, url_of URL_new (self w) c = inr url) ->
  (exists eff, trace w' = (trace w ++ eff)%list
               /\ Forall (fun e => is_throw e = false) eff)
  /\ forall tid t t' o,
      tasks w !! tid = Some t -> suspended t ->
      tasks w' !! tid = Some t' -> at_ t' = Returned o ->
      (exists v, o = Payload v) \/ (exists m, o = Nok m).
Proof.
  intros Hstep Hurl. destruct ev as [c|tid0 s|tid0| |v].
  - destruct (Hurl c eq_refl) as [url Hu]. unfold url_of in Hu.
    simpl in Hstep. injection Hstep as <-.
    rewrite call_request, (request_spec _ _ _ _ _ _ _ Hu). cbn [trace tasks].
    split.
    + eexists. split; [reflexivity|]. apply Forall_app. split.
      * unfold superseded. destruct (controllers (self w) !! _); repeat constructor.
      * destruct (enter_loop_cases (self w) (length (tasks w))
                    (new_frame w (method_of c) (path_of c) (data_of c) (opts_of c) url) 0)
          as [[_ ->]|[_ ->]]; repeat constructor.
    + intros tid t t' o Ht [a Ha] Ht' Hret.
      rewrite (lookup_app_l_Some _ _ _ _ Ht) in Ht'. congruence.
  - apply step_settle in Hstep as (t0 & t0' & eff & Ht0 & Hres & ->).
    apply resume_summary in Hres as (_ & _ & Heff & Hout). cbn [trace tasks].
    split.
    + exists eff. split; [reflexivity|].
      eapply Forall_impl; [exact Heff|]. intros e [H _]. exact H.
    + intros tid t t' o Ht [a Ha] Ht' Hret.
      destruct (decide (tid0 = tid)) as [->|Hne].
      * rewrite list_lookup_insert_eq in Ht' by (eapply lookup_lt_Some; exact Ht).
        injection Ht' as <-.
        destruct Hout as [[a' Ha']|[[v Hv]|[m Hm]]];
          [congruence | left; exists v | right; exists m]; congruence.
      * rewrite list_lookup_insert_ne in Ht' by exact Hne. congruence.
  - apply step_timeout in Hstep as (t0 & Ht0 & _ & ->). cbn [trace tasks].
    split.
    + eexists. split; [reflexivity|]. repeat constructor.
    + intros tid t t' o Ht [a Ha] Ht' Hret.
      destruct (decide (tid0 = tid)) as [->|Hne].
      * rewrite list_lookup_insert_eq in Ht' by (eapply lookup_lt_Some; exact Ht).
        injection Ht' as <-. simpl in Hret. congruence.
      * rewrite list_lookup_insert_ne in Ht' by exact Hne. congruence.
  - simpl in Hstep. injection Hstep as <-. rewrite abortAll_spec. cbn [trace tasks].
    split.
    + eexists. split; [reflexivity|].
      apply Forall_forall. intros e He. apply list_elem_of_In in He.
      apply in_map_iff in He as (c & <- & _). reflexivity.
    + intros tid t t' o Ht [a Ha] Ht' Hret. congruence.
  - simpl in Hstep. injection Hstep as <-. cbn [trace tasks set_self].
    split.
    + exists []. split; [rewrite app_nil_r; reflexivity|constructor].
    + intros tid t t' o Ht [a Ha] Ht' Hret. congruence.
Qed.

(** Throws come from calls whose URL is not built, and from nowhere
    else. *)
Lemma step_throws w ev w' :
  step URL_new w ev = Some w' ->
  exists eff,
    trace w' = (trace w ++ eff)%list
    /\ ((exists e, In (EThrow e) eff)
        <-> exists c e, ev = Call c /\ url_of URL_new (self w) c = inl e).
Proof.
  intros Hstep.
  assert (Hno : (forall c, ev = Call c ->
                           exists url, url_of URL_new (self w) c = inr url) ->
                exists eff,
                  trace w' = (trace w ++ eff)%list
                  /\ ((exists e, In (EThrow e) eff)
                      <-> exists c e, ev = Call c
                                      /\ url_of URL_new (self w) c = inl e)).
  { intros Hurl. destruct (step_effects _ _ _ Hstep Hurl) as [(eff & Htr & Hall) _].
    exists eff. split; [exact Htr|]. split.
    - intros [e He]. rewrite List.Forall_forall in Hall.
      apply Hall in He. discriminate.
    - intros (c & e & -> & He). destruct (Hurl c eq_refl) as [url Hu]. congruence. }
  destruct ev as [c|tid0 s|tid0| |v]; try (apply Hno; intros c E; discriminate).
  destruct (url_of URL_new (self w) c) as [e|url] eqn:Hu.
  - simpl in Hstep. injection Hstep as <-. exists [EThrow e]. split.
    + rewrite call_request. unfold url_of in Hu.
      rewrite (request_throws _ _ _ _ _ _ _ Hu). reflexivity.
    + split; [intros _; exists c, e; auto | intros _; exists e; left; reflexivity].
  - apply Hno. intros c' E. injection E as <-. eauto.
Qed.

(** How the [catch] block ends. *)
Lemma catch_outcome this tid t err t' eff :
  catch this tid t err = (t', eff) ->
  Forall (fun e => is_throw e = false) eff
  /\ if String.eqb (err_name err) "AbortError"
        || (rq_attempts (rq t) - 1 <=? attempt t)
     then at_ t' = Returned (Nok (err_message err))
     else at_ t' = Suspended AwaitFetch /\ attempt t' = attempt t + 1.
Proof.
  intros Hc. split.
  - destruct (catch_summary _ _ _ _ _ _ Hc) as (_ & Heff & _).
    eapply Forall_impl; [exact Heff|]. intros e [H _]. exact H.
  - destruct (catch_cases this tid t err) as [[E1 E]|[(E1 & Hlt & E)|(E1 & Hge & E)]];
      rewrite E in Hc; injection Hc as <- <-; rewrite E1; cbn [orb at_ attempt].
    + reflexivity.
    + destruct (Z.leb_spec (rq_attempts (rq t) - 1) (attempt t)); [lia|].
      split; reflexivity.
    + destruct (Z.leb_spec (rq_attempts (rq t) - 1) (attempt t)); [reflexivity|lia].
Qed.

(** A rejection of the pending [await], whatever the error, is caught. *)
Lemma rejection_settles w tid t err :
  tasks w !! tid = Some t -> suspended t ->
  exists w' t',
    step URL_new w (Settle tid (Rejected err)) = Some w'
    /\ tasks w' !! tid = Some t'
    /\ (exists eff, trace w' = (trace w ++ eff)%list
                    /\ Forall (fun e => is_throw e = false) eff)
    /\ if String.eqb (err_name err) "AbortError"
          || (rq_attempts (rq t) - 1 <=? attempt t)
       then at_ t' = Returned (Nok (err_message err))
       else at_ t' = Suspended AwaitFetch /\ attempt t' = attempt t + 1.
Proof.
  intros Ht [a Ha].
  assert (Hres : resume (self w) tid t (Rejected err)
                 = Some (catch (self w) tid t err)).
  { unfold resume. rewrite Ha. destruct a; reflexivity. }
  unfold step. rewrite Ht, Hres.
  destruct (catch (self w) tid t err) as [t' eff] eqn:Hc.
  destruct (catch_outcome _ _ _ _ _ _ Hc) as [Heff Hout].
  eexists. exists t'. split; [reflexivity|]. cbn [tasks trace].
  split; [apply list_lookup_insert_eq; eapply lookup_lt_Some; exact Ht|].
  split; [exists eff; split; [reflexivity|exact Heff]|exact Hout].
Qed.

(** A response with a status outside the success range, and then the text
    of its body, end in the [catch] block, whatever the transport made of
    the signal. *)
Lemma bad_status_settles w tid t r body :
  tasks w !! tid = Some t -> at_ t = Suspended AwaitFetch -> ok r = false ->
  exists w' t',
    play URL_new w [Settle tid (Responded r); Settle tid (BodyRead body)] = Some w'
    /\ tasks w' !! tid = Some t'
    /\ (exists eff, trace w' = (trace w ++ eff)%list
                    /\ Forall (fun e => is_throw e = false) eff)
    /\ if rq_attempts (rq t) - 1 <=? attempt t
       then at_ t' = Returned (Nok (err_message (request_failed r body)))
       else at_ t' = Suspended AwaitFetch /\ attempt t' = attempt t + 1.
Proof.
  intros Ht Hat Hok.
  assert (Hlt : (tid < length (tasks w))%nat) by (eapply lookup_lt_Some; exact Ht).
  cbn [play step]. rewrite Ht. unfold resume at 1. rewrite Hat, Hok. cbn [negb].
  cbn [tasks self trace]. rewrite list_lookup_insert_eq by exact Hlt.
  cbn [resume at_ rq attempt].
  destruct (catch (self w) tid
              {| rq := rq t; attempt := attempt t; timeoutId := false;
                 at_ := Suspended (AwaitErrorText r) |} (request_failed r body))
    as [t' eff] eqn:Hc.
  destruct (catch_outcome _ _ _ _ _ _ Hc) as [Heff Hout].
  cbn [rq attempt request_failed err_name String.eqb Ascii.eqb Bool.eqb orb] in Hout.
  eexists. exists t'. split; [reflexivity|]. cbn [tasks trace].
  split; [apply list_lookup_insert_eq; rewrite length_insert; exact Hlt|].
  split; [|exact Hout].
  exists eff. split; [rewrite app_nil_r; reflexivity|exact Heff].
Qed.

(** A cancelled call that is waiting: the one settlement the contract of
    the transport allows is the cancellation, and it ends the call. *)
Lemma cancelled_settles w tid t s :
  tasks w !! tid = Some t -> suspended t ->
  aborted w (rq_controller (rq t)) = true ->
  honours w (Settle tid s) = true ->
  exists err w' t',
    s = Rejected err /\ is_abort s = true
    /\ step URL_new w (Settle tid s) = Some w'
    /\ tasks w' !! tid = Some t'
    /\ at_ t' = Returned (Nok (err_message err)).
Proof.
  intros Ht [a Ha] Hab Hhon.
  unfold honours in Hhon. rewrite Ht, Hab in Hhon.
  destruct s as [r|v|err]; try discriminate.
  destruct (rejection_settles w tid t err Ht (ex_intro _ a Ha))
    as (w' & t' & Hstep & Ht' & _ & Hout).
  simpl in Hhon. rewrite Hhon in Hout. cbn [orb] in Hout.
  exists err, w', t'. auto.
Qed.

(** C3. When the pending [await] of a call rejects with an [AbortError],
    and so whenever the controller of the call has been aborted and the
    transport honours the signal, the call returns the failure object with
    the message of the error at once: its attempt counter does not move
    and no [fetch] is dispatched, whatever is left of its budget. *)
Theorem cancellation_is_terminal (w : world) (tid : nat) (t : task) (s : settlement) :
  tasks w !! tid = Some t ->
  suspended t ->
  is_abort s = true
  \/ (aborted w (rq_controller (rq t)) = true
      /\ honours w (Settle tid s) = true) ->
  exists err w' t',
    s = Rejected err
    /\ step URL_new w (Settle tid s) = Some w'
    /\ tasks w' !! tid = Some t'
    /\ at_ t' = Returned (Nok (err_message err))
    /\ attempt t' = attempt t
    /\ exists eff, trace w' = (trace w ++ eff)%list
                   /\ forall tid', dispatches tid' eff = 0%nat.
Proof.
  intros Ht [a Ha] Hs.
  assert (Habort : is_abort s = true).
  { destruct Hs as [H|[Hab Hh]]; [exact H|].
    unfold honours in Hh. rewrite Ht, Hab in Hh. exact Hh. }
  destruct s as [r|v|err]; try discriminate. simpl in Habort.
  exists err. unfold step. rewrite Ht. unfold resume. rewrite Ha.
  assert (Hc : catch (self w) tid t err
               = ({| rq := rq t; attempt := attempt t; timeoutId := false;
                     at_ := Returned (Nok (err_message err)) |},
                  log (self w) (rq t) "ABORT" (attempt t))).
  { unfold catch. rewrite Habort. reflexivity. }
  destruct a; rewrite Hc; (eexists; eexists; split; [reflexivity|]);
    (split; [reflexivity|]); cbn [tasks trace];
    (split; [apply list_lookup_insert_eq; eapply lookup_lt_Some; exact Ht|]);
    (split; [reflexivity|]); (split; [reflexivity|]);
    (eexists; split; [reflexivity|]);
    intros tid'; apply quiet_no_fetch, log_quiet.
Qed.

End Outcomes.

(** ** The attempt budget *)

Section Budget.

Variable URL_new : string -> string -> option URL.

Lemma run_app w evs1 evs2 :
  run URL_new w (evs1 ++ evs2)
  = match run URL_new w evs1 with
    | Some w' => run URL_new w' evs2
    | None => None
    end.
Proof.
  revert w. induction evs1 as [|ev evs1 IH]; intros w; simpl.
  - reflexivity.
  - destruct (honours w ev); [|reflexivity].
    destruct (step URL_new w ev); [apply IH|reflexivity].
Qed.

(** One failed attempt, from the pending [fetch] to the end of [catch]. *)
Lemma failure_caught w tid f k fl :
  fetching w tid f k -> genuine fl ->
  run URL_new w (failure_events tid fl)
  = Some {| self := self w; signals := signals w;
            tasks := <[tid := fst (catch (self w) tid
                                     {| rq := f; attempt := k; timeoutId := false;
                                        at_ := Suspended AwaitFetch |}
                                     (failure_error fl))]> (tasks w);
            trace := (trace w
                      ++ snd (catch (self w) tid
                                {| rq := f; attempt := k; timeoutId := false;
                                   at_ := Suspended AwaitFetch |}
                                (failure_error fl)))%list |}.
Proof.
  intros [Ht Hlive] Hgen.
  assert (Hcatch : forall t1 t2 err,
             rq t1 = rq t2 -> attempt t1 = attempt t2 ->
             catch (self w) tid t1 err = catch (self w) tid t2 err).
  { intros t1 t2 err E1 E2. unfold catch. rewrite E1, E2. reflexivity. }
  destruct fl as [err|r body]; simpl in Hgen.
  - cbn [failure_events run honours step]. rewrite Ht. cbn [rq].
    rewrite Hlive. cbn [resume at_]. rewrite surjective_pairing at 1.
    cbn [failure_error].
    rewrite (Hcatch _ {| rq := f; attempt := k; timeoutId := false;
                         at_ := Suspended AwaitFetch |}) by reflexivity.
    reflexivity.
  - cbn [failure_events run honours step]. rewrite Ht. cbn [rq].
    rewrite Hlive. cbn [resume at_ rq attempt]. rewrite Hgen. cbn [negb].
    assert (Hlt : (tid < length (tasks w))%nat) by (eapply lookup_lt_Some; exact Ht).
    cbn [tasks signals self trace].
    rewrite list_lookup_insert_eq by exact Hlt. cbn [rq].
    unfold aborted in *. cbn [signals]. rewrite Hlive.
    cbn [resume at_ rq attempt is_abort].
    rewrite surjective_pairing at 1. cbn [failure_error tasks trace].
    rewrite list_insert_insert_eq, app_nil_r.
    rewrite (Hcatch _ {| rq := f; attempt := k; timeoutId := false;
                         at_ := Suspended AwaitFetch |}) by reflexivity.
    reflexivity.
Qed.

Lemma genuine_not_abort fl :
  genuine fl -> String.eqb (err_name (failure_error fl)) "AbortError" = false.
Proof. destruct fl; simpl; auto. Qed.

(** A failure with budget left dispatches the next attempt. *)
Lemma failure_retried w tid f k fl :
  fetching w tid f k -> genuine fl -> k < rq_attempts f - 1 ->
  exists w' eff,
    run URL_new w (failure_events tid fl) = Some w'
    /\ fetching w' tid f (k + 1)
    /\ trace w' = (trace w ++ eff)%list /\ dispatches tid eff = 1%nat.
Proof.
  intros Hf Hgen Hlt. rewrite (failure_caught _ _ _ _ _ Hf Hgen).
  destruct Hf as [Ht Hlive].
  destruct (catch_cases (self w) tid
              {| rq := f; attempt := k; timeoutId := false;
                 at_ := Suspended AwaitFetch |} (failure_error fl))
    as [[E _]|[(_ & _ & E)|(_ & Hge & _)]]; cbn [rq attempt] in *.
  - rewrite genuine_not_abort in E by exact Hgen. discriminate.
  - rewrite E. cbn [fst snd]. eexists. eexists. split; [reflexivity|].
    split; [split|split].
    + cbn [tasks]. apply list_lookup_insert_eq. eapply lookup_lt_Some. exact Ht.
    + exact Hlive.
    + reflexivity.
    + rewrite dispatches_app, dispatches_fetch.
      rewrite (quiet_no_fetch _ _ (log_quiet _ _ _ _)). reflexivity.
  - lia.
Qed.

(** A failure with no budget left returns the failure object. *)
Lemma failure_final w tid f k fl :
  fetching w tid f k -> genuine fl -> rq_attempts f - 1 <= k ->
  exists w' t' eff,
    run URL_new w (failure_events tid fl) = Some w'
    /\ tasks w' !! tid = Some t'
    /\ at_ t' = Returned (Nok (err_message (failure_error fl)))
    /\ trace w' = (trace w ++ eff)%list /\ dispatches tid eff = 0%nat.
Proof.
  intros Hf Hgen Hge. rewrite (failure_caught _ _ _ _ _ Hf Hgen).
  destruct Hf as [Ht Hlive].
  destruct (catch_cases (self w) tid
              {| rq := f; attempt := k; timeoutId := false;
                 at_ := Suspended AwaitFetch |} (failure_error fl))
    as [[E _]|[(_ & Hlt & _)|(_ & _ & E)]]; cbn [rq attempt] in *.
  - rewrite genuine_not_abort in E by exact Hgen. discriminate.
  - lia.
  - rewrite E. cbn [fst snd]. eexists. eexists. eexists. split; [reflexivity|].
    split; [|split; [|split]].
    + cbn [tasks]. apply list_lookup_insert_eq. eapply lookup_lt_Some. exact Ht.
    + reflexivity.
    + reflexivity.
    + apply quiet_no_fetch, log_quiet.
Qed.

Lemma failures_retried fs : forall w tid f k,
  fetching w tid f k -> Forall genuine fs ->
  k + Z.of_nat (length fs) < rq_attempts f ->
  exists w' eff,
    run URL_new w (concat (map (failure_events tid) fs)) = Some w'
    /\ fetching w' tid f (k + Z.of_nat (length fs))
    /\ trace w' = (trace w ++ eff)%list /\ dispatches tid eff = length fs.
Proof.
  induction fs as [|fl fs IH]; intros w tid f k Hf Hgen Hlt.
  - exists w, []. cbn [map concat run length]. rewrite Z.add_0_r, app_nil_r.
    auto.
  - apply Forall_cons in Hgen as [Hfl Hfs]. cbn [length] in Hlt.
    destruct (failure_retried w tid f k fl Hf Hfl) as (w1 & eff1 & Hrun1 & Hf1 & Htr1 & Hd1);
      [lia|].
    destruct (IH w1 tid f (k + 1) Hf1 Hfs) as (w2 & eff2 & Hrun2 & Hf2 & Htr2 & Hd2);
      [lia|].
    exists w2, (eff1 ++ eff2)%list. cbn [map concat].
    rewrite run_app, Hrun1, Hrun2. split; [reflexivity|]. split; [|split].
    + replace (k + Z.of_nat (length (fl :: fs))) with (k + 1 + Z.of_nat (length fs))
        by (cbn [length]; lia).
      exact Hf2.
    + rewrite Htr2, Htr1, <- List.app_assoc. reflexivity.
    + rewrite dispatches_app, Hd1, Hd2. reflexivity.
Qed.

(** A call that is issued waits for its first [fetch]. *)
Lemma call_fetching w c url :
  url_of URL_new (self w) c = inr url ->
  0 <= nullish (opt_retries (opts_of c)) (defaultRetries (self w)) ->
  let f := new_frame w (method_of c) (path_of c) (data_of c) (opts_of c) url in
  fetching (call URL_new c w) (length (tasks w)) f 0
  /\ trace (call URL_new c w)
     = (trace w ++ superseded w (rq_key f)
          ++ [EFetch (length (tasks w)) (fetch_args (self w) f)])%list.
Proof.
  intros Hurl Hn f. rewrite call_request, (request_spec _ _ _ _ _ _ _ Hurl).
  fold f.
  destruct (enter_loop_cases (self w) (length (tasks w)) f 0) as [[_ E]|[Hle _]].
  2:{ subst f. cbn [new_frame rq_attempts] in Hle. lia. }
  rewrite E. cbn [fst snd]. split; [split|reflexivity].
  - cbn [tasks]. apply list_lookup_middle. reflexivity.
  - unfold aborted. cbn [signals]. subst f. cbn [new_frame rq_controller].
    rewrite lookup_app_r.
    + destruct (controllers (self w) !! _);
        rewrite ?length_insert, Nat.sub_diag; reflexivity.
    + destruct (controllers (self w) !! _); rewrite ?length_insert; lia.
Qed.

End Budget.

(** ** Every failure ends in a value *)

Section Settled.

Variable URL_new : string -> string -> option URL.

Lemma failing_caught w tid f k fl :
  fetching w tid f k -> failing fl ->
  run URL_new w (failure_events tid fl)
  = Some {| self := self w; signals := signals w;
            tasks := <[tid := fst (catch (self w) tid
                                     {| rq := f; attempt := k; timeoutId := false;
                                        at_ := Suspended AwaitFetch |}
                                     (failure_error fl))]> (tasks w);
            trace := (trace w
                      ++ snd (catch (self w) tid
                                {| rq := f; attempt := k; timeoutId := false;
                                   at_ := Suspended AwaitFetch |}
                                (failure_error fl)))%list |}.
Proof.
  intros [Ht Hlive] Hfl.
  assert (Hcatch : forall t1 t2 err,
             rq t1 = rq t2 -> attempt t1 = attempt t2 ->
             catch (self w) tid t1 err = catch (self w) tid t2 err).
  { intros t1 t2 err E1 E2. unfold catch. rewrite E1, E2. reflexivity. }
  destruct fl as [err|r body]; simpl in Hfl.
  - cbn [failure_events run honours step]. rewrite Ht. cbn [rq].
    rewrite Hlive. cbn [resume at_]. rewrite surjective_pairing at 1.
    cbn [failure_error].
    rewrite (Hcatch _ {| rq := f; attempt := k; timeoutId := false;
                         at_ := Suspended AwaitFetch |}) by reflexivity.
    reflexivity.
  - cbn [failure_events run honours step]. rewrite Ht. cbn [rq].
    rewrite Hlive. cbn [resume at_ rq attempt]. rewrite Hfl. cbn [negb].
    assert (Hlt : (tid < length (tasks w))%nat) by (eapply lookup_lt_Some; exact Ht).
    cbn [tasks signals self trace].
    rewrite list_lookup_insert_eq by exact Hlt. cbn [rq].
    unfold aborted in *. cbn [signals]. rewrite Hlive.
    cbn [resume at_ rq attempt is_abort].
    rewrite surjective_pairing at 1. cbn [failure_error tasks trace].
    rewrite list_insert_insert_eq, app_nil_r.
    rewrite (Hcatch _ {| rq := f; attempt := k; timeoutId := false;
                         at_ := Suspended AwaitFetch |}) by reflexivity.
    reflexivity.
Qed.

(** One failure of any kind: the call has returned the failure object, or
    it waits for the [fetch] of its next attempt. *)
Lemma failing_outcome w tid f k fl :
  fetching w tid f k -> failing fl ->
  exists w' eff,
    run URL_new w (failure_events tid fl) = Some w'
    /\ trace w' = (trace w ++ eff)%list
    /\ Forall (fun e => is_throw e = false) eff
    /\ ((exists t', tasks w' !! tid = Some t'
                    /\ at_ t' = Returned (Nok (err_message (failure_error fl))))
        \/ (fetching w' tid f (k + 1) /\ k + 1 < rq_attempts f)).
Proof.
  intros Hf Hfl. rewrite (failing_caught _ _ _ _ _ Hf Hfl).
  destruct Hf as [Ht Hlive].
  assert (Hlt : (tid < length (tasks w))%nat) by (eapply lookup_lt_Some; exact Ht).
  destruct (catch (self w) tid
              {| rq := f; attempt := k; timeoutId := false;
                 at_ := Suspended AwaitFetch |} (failure_error fl))
    as [tc effc] eqn:Hc.
  pose proof (catch_summary _ _ _ _ _ _ Hc) as (_ & Heff & _).
  cbn [fst snd]. eexists. exists effc. split; [reflexivity|]. split; [reflexivity|].
  split; [eapply Forall_impl; [exact Heff|]; intros e [H _]; exact H|].
  cbn [tasks].
  destruct (catch_cases (self w) tid
              {| rq := f; attempt := k; timeoutId := false;
                 at_ := Suspended AwaitFetch |} (failure_error fl))
    as [[_ E]|[(_ & Hlt' & E)|(_ & _ & E)]];
    rewrite E in Hc; injection Hc as <- <-; cbn [rq attempt] in *.
  - left. eexists. split; [apply list_lookup_insert_eq; exact Hlt|reflexivity].
  - right. split; [split|lia].
    + cbn [tasks]. apply list_lookup_insert_eq. exact Hlt.
    + exact Hlive.
  - left. eexists. split; [apply list_lookup_insert_eq; exact Hlt|reflexivity].
Qed.

(** Failures as many as the attempts left: one of them ends the call. *)
Lemma failing_ends fs : forall w tid f k,
  fetching w tid f k -> Forall failing fs ->
  k < rq_attempts f -> rq_attempts f - k <= Z.of_nat (length fs) ->
  exists pre fl post w' t' eff,
    fs = (pre ++ fl :: post)%list
    /\ run URL_new w (concat (map (failure_events tid) (pre ++ [fl]))) = Some w'
    /\ tasks w' !! tid = Some t'
    /\ at_ t' = Returned (Nok (err_message (failure_error fl)))
    /\ trace w' = (trace w ++ eff)%list
    /\ Forall (fun e => is_throw e = false) eff.
Proof.
  induction fs as [|fl fs IH]; intros w tid f k Hf Hall Hk Hlen.
  - cbn [length] in Hlen. lia.
  - apply Forall_cons in Hall as [Hfl Hfs]. cbn [length] in Hlen.
    destruct (failing_outcome w tid f k fl Hf Hfl)
      as (w1 & eff1 & Hrun1 & Htr1 & Hno1 & [(t1 & Ht1 & Hat1)|[Hf1 Hk1]]).
    + exists [], fl, fs, w1, t1, eff1. cbn [app map concat].
      rewrite app_nil_r. auto 7.
    + destruct (IH w1 tid f (k + 1) Hf1 Hfs Hk1)
        as (pre & fl' & post & w2 & t2 & eff2 & -> & Hrun2 & Ht2 & Hat2 & Htr2 & Hno2);
        [lia|].
      exists (fl :: pre), fl', post, w2, t2, (eff1 ++ eff2)%list.
      split; [reflexivity|]. cbn [app map concat].
      rewrite run_app, Hrun1, Hrun2. split; [reflexivity|].
      split; [exact Ht2|]. split; [exact Hat2|]. split.
      * rewrite Htr2, Htr1, <- List.app_assoc. reflexivity.
      * apply Forall_app. auto.
Qed.

End Settled.

(** C4, as stated, fails for every reading of [an absolute HTTP(S) URL]
    that refuses [http://], which has no host, or accepts
    [HTTPS://API.TEST], whose scheme is in upper case: the constructor
    accepts the first and throws on the second. *)
Lemma constructor_guard_is_a_prefix_test :
  (exists this, constructor (VStr "http://") no_options = inr this)
  /\ (exists e, constructor (VStr "HTTPS://API.TEST") no_options = inl e)
  /\ ~ exists P : string -> bool,
        (P "http://" = false \/ P "HTTPS://API.TEST" = true)
        /\ throws_exactly_when P.
Proof.
  split; [eexists; reflexivity|]. split; [eexists; reflexivity|].
  intros (P & [H|H] & Hiff).
  - destruct (proj2 (Hiff (VStr "http://") no_options)) as [e He].
    + intros (s & E & _ & Hs). injection E as <-. congruence.
    + discriminate He.
  - apply (proj1 (Hiff (VStr "HTTPS://API.TEST") no_options)).
    + eexists. reflexivity.
    + exists "HTTPS://API.TEST". split; [reflexivity|]. split; [discriminate|exact H].
Qed.

(** C4, amended.  The constructor throws exactly when its first argument
    is not a non-empty string that starts with [http://] or [https://] in
    lower case, as it does for the base ["not-a-url"]; nothing after the
    prefix is inspected.  After that the one throw there is comes from a
    call whose path and base the URL parser refuses.  Every other event
    emits no throw, and a suspended call that returns has a payload or the
    failure object.  Failures do end in a value: a rejection of the
    pending [await], whatever the error, and a response with a status
    outside the success range followed by the text of its body, are
    caught; the call returns the failure object with the message of the
    error when the error is a cancellation or the attempts are used up,
    and waits for the [fetch] of its next attempt otherwise.  So a call
    with [retries = n] that meets [n+1] failures of any kind has returned
    the failure object by the last of them. *)
Theorem only_construction_throws (URL_new : string -> string -> option URL) :
  (forall root0 options,
      (exists e, constructor root0 options = inl e)
      <-> ~ (exists s, root0 = VStr s /\ s <> ""
                       /\ (String.prefix "http://" s = true
                           \/ String.prefix "https://" s = true)))
  /\ (forall options,
         constructor (VStr "not-a-url") options
         = inl (Error "Error" "Invalid 'root' URL provided."))
  /\ (forall w ev w',
         step URL_new w ev = Some w' ->
         (forall c, ev = Call c -> exists url, url_of URL_new (self w) c = inr url) ->
         (exists eff, trace w' = (trace w ++ eff)%list
                      /\ Forall (fun e => is_throw e = false) eff)
         /\ forall tid t t' o,
             tasks w !! tid = Some t -> suspended t ->
             tasks w' !! tid = Some t' -> at_ t' = Returned o ->
             (exists v, o = Payload v) \/ (exists m, o = Nok m))
  /\ (forall w ev w',
         step URL_new w ev = Some w' ->
         exists eff,
           trace w' = (trace w ++ eff)%list
           /\ ((exists e, In (EThrow e) eff)
               <-> exists c e, ev = Call c /\ url_of URL_new (self w) c = inl e))
  /\ (forall w tid t err,
         tasks w !! tid = Some t -> suspended t ->
         exists w' t',
           step URL_new w (Settle tid (Rejected err)) = Some w'
           /\ tasks w' !! tid = Some t'
           /\ (exists eff, trace w' = (trace w ++ eff)%list
                           /\ Forall (fun e => is_throw e = false) eff)
           /\ if String.eqb (err_name err) "AbortError"
                 || (rq_attempts (rq t) - 1 <=? attempt t)
              then at_ t' = Returned (Nok (err_message err))
              else at_ t' = Suspended AwaitFetch /\ attempt t' = attempt t + 1)
  /\ (forall w tid t r body,
         tasks w !! tid = Some t -> at_ t = Suspended AwaitFetch -> ok r = false ->
         exists w' t',
           play URL_new w [Settle tid (Responded r); Settle tid (BodyRead body)]
           = Some w'
           /\ tasks w' !! tid = Some t'
           /\ (exists eff, trace w' = (trace w ++ eff)%list
                           /\ Forall (fun e => is_throw e = false) eff)
           /\ if rq_attempts (rq t) - 1 <=? attempt t
              then at_ t' = Returned (Nok (err_message (request_failed r body)))
              else at_ t' = Suspended AwaitFetch /\ attempt t' = attempt t + 1)
  /\ (forall w c url n fs,
         url_of URL_new (self w) c = inr url ->
         nullish (opt_retries (opts_of c)) (defaultRetries (self w)) = Z.of_nat n ->
         length fs = S n -> Forall failing fs ->
         exists pre fl post w' t' eff,
           fs = (pre ++ fl :: post)%list
           /\ run URL_new (call URL_new c w)
                (concat (map (failure_events (length (tasks w))) (pre ++ [fl])))
              = Some w'
           /\ tasks w' !! length (tasks w) = Some t'
           /\ at_ t' = Returned (Nok (err_message (failure_error fl)))
           /\ trace w' = (trace w ++ eff)%list
           /\ Forall (fun e => is_throw e = false) eff).
Proof.
  split; [apply constructor_throws_iff|]. split; [reflexivity|].
  split; [apply step_effects|]. split; [apply step_throws|].
  split; [apply rejection_settles|]. split; [apply bad_status_settles|].
  intros w c url n fs Hurl Hn Hlen Hall.
  destruct (call_fetching URL_new w c url Hurl) as [Hf Htr]; [lia|].
  destruct (failing_ends URL_new fs _ _ _ 0 Hf Hall)
    as (pre & fl & post & w' & t' & eff & Hfs & Hrun & Ht' & Hat & Htr' & Hno).
  - cbn [new_frame rq_attempts]. lia.
  - cbn [new_frame rq_attempts]. lia.
  - exists pre, fl, post, w', t'. eexists.
    split; [exact Hfs|]. split; [exact Hrun|]. split; [exact Ht'|].
    split; [exact Hat|]. split.
    + rewrite Htr', Htr, <- !List.app_assoc. reflexivity.
    + apply Forall_app. split; [|apply Forall_app; split; [repeat constructor|exact Hno]].
      unfold superseded. destruct (controllers (self w) !! _); repeat constructor.
Qed.

(** C2. A call with [retries = n], given with the call or as the default
    of the instance, all of whose attempts fail with a network error or a
    status outside the success range: after [n] failures it is waiting for
    its [fetch] number [n+1], and the next failure makes it return the
    failure object with the message of that failure, no further [fetch]
    dispatched. *)
Theorem retries_then_fails (URL_new : string -> string -> option URL)
    (w : world) (c : verb_call) (url : string) (n : nat)
    (fs : list failure) (final : failure) :
  url_of URL_new (self w) c = inr url ->
  opt_retries (opts_of c) = Some (Z.of_nat n)
  \/ (opt_retries (opts_of c) = None /\ defaultRetries (self w) = Z.of_nat n) ->
  length fs = n -> Forall genuine fs -> genuine final ->
  let tid := length (tasks w) in
  (exists w1 t1 eff,
      run URL_new (call URL_new c w) (concat (map (failure_events tid) fs)) = Some w1
      /\ tasks w1 !! tid = Some t1 /\ at_ t1 = Suspended AwaitFetch
      /\ trace w1 = (trace w ++ eff)%list /\ dispatches tid eff = S n)
  /\ (exists w2 t2 eff,
         run URL_new (call URL_new c w)
           (concat (map (failure_events tid) (fs ++ [final]))) = Some w2
         /\ tasks w2 !! tid = Some t2
         /\ at_ t2 = Returned (Nok (err_message (failure_error final)))
         /\ trace w2 = (trace w ++ eff)%list /\ dispatches tid eff = S n).
Proof.
  intros Hurl Hn Hlen Hfs Hfinal tid.
  assert (Hretries : nullish (opt_retries (opts_of c)) (defaultRetries (self w))
                     = Z.of_nat n).
  { destruct Hn as [->|[-> ->]]; reflexivity. }
  destruct (call_fetching URL_new w c url Hurl) as [Hf0 Htr0]; [lia|].
  set (f := new_frame w (method_of c) (path_of c) (data_of c) (opts_of c) url) in *.
  assert (Hatt : rq_attempts f = 1 + Z.of_nat n).
  { subst f. cbn [new_frame rq_attempts]. rewrite Hretries. reflexivity. }
  destruct (failures_retried URL_new fs _ tid f 0 Hf0 Hfs) as (w1 & eff1 & Hrun1 & Hf1 & Htr1 & Hd1);
    [lia|].
  assert (Hcount : dispatches tid
                     (superseded w (rq_key f) ++ [EFetch tid (fetch_args (self w) f)]
                      ++ eff1) = S n).
  { rewrite !dispatches_app, dispatches_fetch, Hd1, Hlen.
    unfold superseded. destruct (controllers (self w) !! rq_key f); reflexivity. }
  split.
  - exists w1. eexists. eexists. split; [exact Hrun1|].
    split; [exact (proj1 Hf1)|]. split; [reflexivity|]. split; [|exact Hcount].
    rewrite Htr1, Htr0, <- !List.app_assoc. reflexivity.
  - destruct (failure_final URL_new w1 tid f _ final Hf1 Hfinal)
      as (w2 & t2 & eff2 & Hrun2 & Ht2 & Hat2 & Htr2 & Hd2); [lia|].
    exists w2, t2,
      (superseded w (rq_key f) ++ [EFetch tid (fetch_args (self w) f)]
       ++ eff1 ++ eff2)%list.
    rewrite map_app, concat_app, run_app, Hrun1.
    cbn [map concat]. rewrite app_nil_r. split; [exact Hrun2|].
    split; [exact Ht2|]. split; [exact Hat2|]. split.
    + rewrite Htr2, Htr1, Htr0, <- !List.app_assoc. reflexivity.
    + rewrite !dispatches_app in *. rewrite Hd2. lia.
Qed.

(** ** The invariant of the registry *)

Section Registry.

Variable URL_new : string -> string -> option URL.

(** Steps that leave the registry alone, only set flags, only add effects
    and keep the frames of the calls preserve the invariant. *)
Lemma inv_frame w w' :
  inv w ->
  controllers (self w') = controllers (self w) ->
  length (signals w') = length (signals w) ->
  (forall c, signals w !! c = Some true -> signals w' !! c = Some true) ->
  (forall c, signals w' !! c = Some true ->
             signals w !! c = Some true \/ In (EAbort c) (trace w')) ->
  (forall e, In e (trace w) -> In e (trace w')) ->
  (forall tid t', tasks w' !! tid = Some t' ->
                  exists t, tasks w !! tid = Some t /\ rq t' = rq t) ->
  inv w'.
Proof.
  intros [I1 I2 I3 I4] Hreg Hlen Hmono Hnew Htrace Htasks. split.
  - intros key c H. rewrite Hreg in H. rewrite Hlen. eapply I1. exact H.
  - intros tid t' H. destruct (Htasks _ _ H) as (t & Ht & ->).
    rewrite Hlen. eapply I2. exact Ht.
  - intros tid t' H. destruct (Htasks _ _ H) as (t & Ht & ->).
    rewrite Hreg. destruct (I3 _ _ Ht) as [Hab|Hr]; [left|right; exact Hr].
    apply aborted_true. apply Hmono. apply aborted_true. exact Hab.
  - intros c H. destruct (Hnew _ H) as [Hold|Hin]; [|exact Hin].
    apply Htrace. apply I4. exact Hold.
Qed.

Lemma insert_same_frame (l : list task) tid0 t0 t0' tid t' :
  l !! tid0 = Some t0 -> rq t0' = rq t0 ->
  <[tid0 := t0']> l !! tid = Some t' ->
  exists t, l !! tid = Some t /\ rq t' = rq t.
Proof.
  intros H0 Hrq H. destruct (decide (tid0 = tid)) as [->|Hne].
  - rewrite list_lookup_insert_eq in H by (eapply lookup_lt_Some; exact H0).
    injection H as <-. eauto.
  - rewrite list_lookup_insert_ne in H by exact Hne. eauto.
Qed.

Lemma inv_init this : controllers this = ∅ -> inv (init this).
Proof.
  intros H. split; simpl.
  - intros key c Hk. rewrite H, lookup_empty in Hk. discriminate.
  - intros tid t Ht. rewrite lookup_nil in Ht. discriminate.
  - intros tid t Ht. rewrite lookup_nil in Ht. discriminate.
  - intros c Hc. rewrite lookup_nil in Hc. discriminate.
Qed.

Lemma inv_abortAll w : inv w -> inv (abortAll w).
Proof.
  intros [I1 I2 I3 I4]. rewrite abortAll_spec. split; cbn [self signals tasks trace].
  - intros key c H. simpl in H. rewrite lookup_empty in H. discriminate.
  - intros tid t Ht. rewrite mark_length. eapply I2. exact Ht.
  - intros tid t Ht. left. apply aborted_true. cbn [signals].
    destruct (I3 _ _ Ht) as [Hab|Hr].
    + apply mark_mono. apply aborted_true. exact Hab.
    + apply mark_in.
      * eapply registered_in_values. exact Hr.
      * eapply I2. exact Ht.
  - intros c H. apply in_or_app. apply mark_inv in H as [H|H].
    + left. apply I4. exact H.
    + right. apply in_map. apply in_rev. rewrite rev_involutive.
      apply list_elem_of_In. exact H.
Qed.

Lemma inv_request method path data opts w :
  inv w -> inv (request URL_new method path data opts w).
Proof.
  intros Hinv.
  destruct (buildUrl URL_new (self w) path
              (if String.eqb method "GET" then default_null data else VNull)) as [e|url] eqn:Hurl.
  - rewrite (request_throws _ _ _ _ _ _ _ Hurl).
    apply (inv_frame w); try exact Hinv; try reflexivity; cbn [emit signals trace tasks].
    + auto.
    + auto.
    + intros e0 H. apply in_or_app. auto.
    + eauto.
  - rewrite (request_spec _ _ _ _ _ _ _ Hurl).
    set (f := new_frame w method path data opts url).
    destruct Hinv as [I1 I2 I3 I4].
    assert (Hlen : length (match controllers (self w) !! rq_key f with
                           | Some c => <[c := true]> (signals w)
                           | None => signals w
                           end) = length (signals w)).
    { destruct (controllers (self w) !! rq_key f); [apply length_insert|reflexivity]. }
    assert (Hmono : forall c, signals w !! c = Some true ->
               (match controllers (self w) !! rq_key f with
                | Some c0 => <[c0 := true]> (signals w)
                | None => signals w
                end ++ [false])%list !! c = Some true).
    { intros c H. apply lookup_app_l_Some.
      destruct (controllers (self w) !! rq_key f); [apply insert_true_mono|]; exact H. }
    assert (Hfst : rq (fst (enter_loop (self w) (length (tasks w)) f 0)) = f).
    { unfold enter_loop. destruct (0 <? rq_attempts f); reflexivity. }
    split; cbn [self signals tasks trace set_controllers controllers].
    + intros key c H. rewrite length_app, Hlen. cbn [length].
      rewrite lookup_insert in H. destruct (decide (rq_key f = key)) as [_|_].
      * injection H as <-. lia.
      * apply I1 in H. lia.
    + intros tid t H. rewrite length_app, Hlen. cbn [length].
      apply lookup_snoc_Some in H as [[_ H]|[_ H]].
      * apply I2 in H. lia.
      * subst t. rewrite Hfst. subst f. cbn [new_frame rq_controller]. lia.
    + intros tid t H. apply lookup_snoc_Some in H as [[_ H]|[_ H]].
      * destruct (I3 _ _ H) as [Hab|Hr].
        -- left. apply aborted_true. apply Hmono. apply aborted_true. exact Hab.
        -- destruct (decide (rq_key f = rq_key (rq t))) as [E|Hne].
           ++ left. apply aborted_true. cbn [signals]. apply lookup_app_l_Some.
              rewrite E, Hr. apply list_lookup_insert_eq. eapply I2. exact H.
           ++ right. rewrite lookup_insert_ne by exact Hne. exact Hr.
      * subst t. rewrite Hfst. right. subst f. cbn [new_frame rq_controller].
        apply lookup_insert_eq.
    + intros c H. apply in_or_app.
      apply lookup_snoc_Some in H as [[_ H]|[_ H]]; [|discriminate].
      unfold superseded. destruct (controllers (self w) !! rq_key f) as [c0|].
      * apply insert_true_inv in H as [H| ->].
        -- left. apply I4. exact H.
        -- right. left. reflexivity.
      * left. apply I4. exact H.
Qed.

Lemma inv_step w ev w' : inv w -> step URL_new w ev = Some w' -> inv w'.
Proof.
  intros Hinv Hstep. destruct ev as [c|tid0 s|tid0| |v].
  - simpl in Hstep. injection Hstep as <-. rewrite call_request.
    apply inv_request. exact Hinv.
  - apply step_settle in Hstep as (t0 & t0' & eff & Ht0 & Hres & ->).
    apply resume_summary in Hres as (_ & Hrq & _ & _).
    apply (inv_frame w); try exact Hinv; try reflexivity; cbn [signals trace tasks].
    + auto.
    + auto.
    + intros e H. apply in_or_app. auto.
    + intros tid t'. apply (insert_same_frame _ _ _ _ _ _ Ht0 Hrq).
  - apply step_timeout in Hstep as (t0 & Ht0 & _ & ->).
    apply (inv_frame w); try exact Hinv; try reflexivity; cbn [signals trace tasks].
    + apply length_insert.
    + intros c. apply insert_true_mono.
    + intros c H. apply insert_true_inv in H as [H| ->]; [auto|].
      right. apply in_or_app. right. left. reflexivity.
    + intros e H. apply in_or_app. auto.
    + intros tid t'. apply (insert_same_frame _ _ _ _ _ _ Ht0). reflexivity.
  - simpl in Hstep. injection Hstep as <-. apply inv_abortAll. exact Hinv.
  - simpl in Hstep. injection Hstep as <-.
    apply (inv_frame w); try exact Hinv; try reflexivity; cbn [set_self signals trace tasks];
      eauto.
Qed.

Lemma inv_run evs : forall w w', inv w -> run URL_new w evs = Some w' -> inv w'.
Proof.
  induction evs as [|ev evs IH]; intros w w' Hinv Hrun; simpl in Hrun.
  - injection Hrun as <-. exact Hinv.
  - destruct (honours w ev); [|discriminate].
    destruct (step URL_new w ev) as [w1|] eqn:Hstep; [|discriminate].
    eapply IH; [|exact Hrun]. eapply inv_step; eassumption.
Qed.

Lemma reachable_inv w : reachable URL_new w -> inv w.
Proof.
  intros (root0 & options & this & evs & Hnew & Hrun).
  eapply inv_run; [|exact Hrun]. apply inv_init.
  unfold constructor in Hnew.
  destruct (negb (truthy root0) || negb (typeof_string root0)
            || negb (root_regex_test (ToString root0))); [discriminate|].
  injection Hnew as <-. reflexivity.
Qed.

End Registry.

(** ** Supersession *)

Section Supersession.

Variable URL_new : string -> string -> option URL.

(** Issuing a call keeps the calls there are and the flags that are set. *)
Lemma request_keeps method path data opts w :
  (forall tid t, tasks w !! tid = Some t ->
                 tasks (request URL_new method path data opts w) !! tid = Some t)
  /\ (forall c, signals w !! c = Some true ->
                signals (request URL_new method path data opts w) !! c = Some true).
Proof.
  destruct (buildUrl URL_new (self w) path
              (if String.eqb method "GET" then default_null data else VNull)) as [e|url] eqn:Hurl.
  - rewrite (request_throws _ _ _ _ _ _ _ Hurl). simpl. auto.
  - rewrite (request_spec _ _ _ _ _ _ _ Hurl). cbn [tasks signals]. split.
    + intros tid t H. apply lookup_app_l_Some. exact H.
    + intros c H. apply lookup_app_l_Some.
      destruct (controllers (self w) !! _); [apply insert_true_mono|]; exact H.
Qed.

(** A call whose controller is aborted and that has not returned a
    payload never will, as long as the transport honours the signal. *)
Lemma cancelled_step w ev w' tid t :
  tasks w !! tid = Some t ->
  aborted w (rq_controller (rq t)) = true ->
  cancelled_or_pending t ->
  honours w ev = true -> step URL_new w ev = Some w' ->
  exists t', tasks w' !! tid = Some t' /\ rq t' = rq t
             /\ aborted w' (rq_controller (rq t')) = true
             /\ cancelled_or_pending t'.
Proof.
  intros Ht Hab Hcp Hhon Hstep. apply aborted_true in Hab.
  destruct ev as [c|tid0 s|tid0| |v].
  - simpl in Hstep. injection Hstep as <-. rewrite call_request.
    destruct (request_keeps (method_of c) (path_of c) (data_of c) (opts_of c) w)
      as [Hk Hm].
    exists t. split; [apply Hk; exact Ht|]. split; [reflexivity|].
    split; [apply aborted_true, Hm; exact Hab|exact Hcp].
  - apply step_settle in Hstep as (t0 & t0' & eff & Ht0 & Hres & ->).
    cbn [tasks]. unfold aborted. cbn [signals]. fold (aborted w).
    destruct (decide (tid0 = tid)) as [->|Hne].
    + rewrite Ht in Ht0. injection Ht0 as <-.
      exists t0'. split; [apply list_lookup_insert_eq; eapply lookup_lt_Some; exact Ht|].
      unfold honours in Hhon. rewrite Ht in Hhon.
      apply aborted_true in Hab. rewrite Hab in Hhon.
      destruct s as [r|v|err]; try discriminate. simpl in Hhon.
      unfold resume in Hres.
      destruct (at_ t) as [a|o]; [|discriminate].
      assert (Hc : catch (self w) tid t err = (t0', eff))
        by (destruct a; congruence).
      unfold catch in Hc. rewrite Hhon in Hc. injection Hc as <- <-.
      cbn [rq at_]. split; [reflexivity|]. split; [exact Hab|].
      right. eauto.
    + exists t. split; [rewrite list_lookup_insert_ne by exact Hne; exact Ht|].
      split; [reflexivity|]. split; [apply aborted_true; exact Hab|exact Hcp].
  - apply step_timeout in Hstep as (t0 & Ht0 & _ & ->).
    cbn [tasks]. unfold aborted. cbn [signals].
    destruct (decide (tid0 = tid)) as [->|Hne].
    + rewrite Ht in Ht0. injection Ht0 as <-.
      eexists. split; [apply list_lookup_insert_eq; eapply lookup_lt_Some; exact Ht|].
      cbn [rq]. split; [reflexivity|]. split.
      * rewrite insert_true_mono by exact Hab. reflexivity.
      * destruct Hcp as [[a Ha]|[m Hm]]; [left; exists a|right; exists m]; assumption.
    + exists t. split; [rewrite list_lookup_insert_ne by exact Hne; exact Ht|].
      split; [reflexivity|]. split; [|exact Hcp].
      rewrite insert_true_mono by exact Hab. reflexivity.
  - simpl in Hstep. injection Hstep as <-. rewrite abortAll_spec.
    exists t. cbn [tasks]. split; [exact Ht|]. split; [reflexivity|].
    split; [|exact Hcp]. apply aborted_true. cbn [signals].
    apply mark_mono. exact Hab.
  - simpl in Hstep. injection Hstep as <-.
    exists t. cbn [set_self tasks]. split; [exact Ht|]. split; [reflexivity|].
    split; [apply aborted_true; exact Hab|exact Hcp].
Qed.

Lemma cancelled_run evs : forall w w' tid t,
  tasks w !! tid = Some t ->
  aborted w (rq_controller (rq t)) = true ->
  cancelled_or_pending t ->
  run URL_new w evs = Some w' ->
  exists t', tasks w' !! tid = Some t' /\ cancelled_or_pending t'.
Proof.
  induction evs as [|ev evs IH]; intros w w' tid t Ht Hab Hcp Hrun; simpl in Hrun.
  - injection Hrun as <-. eauto.
  - destruct (honours w ev) eqn:Hhon; [|discriminate].
    destruct (step URL_new w ev) as [w1|] eqn:Hstep; [|discriminate].
    destruct (cancelled_step _ _ _ _ _ Ht Hab Hcp Hhon Hstep)
      as (t1 & Ht1 & _ & Hab1 & Hcp1).
    eapply IH; eassumption.
Qed.

(** The same, with the frame of the call and the flag of its controller. *)
Lemma cancelled_run_aborted evs : forall w w' tid t,
  tasks w !! tid = Some t ->
  aborted w (rq_controller (rq t)) = true ->
  cancelled_or_pending t ->
  run URL_new w evs = Some w' ->
  exists t', tasks w' !! tid = Some t' /\ rq t' = rq t
             /\ aborted w' (rq_controller (rq t)) = true
             /\ cancelled_or_pending t'.
Proof.
  induction evs as [|ev evs IH]; intros w w' tid t Ht Hab Hcp Hrun; simpl in Hrun.
  - injection Hrun as <-. eauto.
  - destruct (honours w ev) eqn:Hhon; [|discriminate].
    destruct (step URL_new w ev) as [w1|] eqn:Hstep; [|discriminate].
    destruct (cancelled_step _ _ _ _ _ Ht Hab Hcp Hhon Hstep)
      as (t1 & Ht1 & Hrq1 & Hab1 & Hcp1).
    destruct (IH _ _ _ _ Ht1 Hab1 Hcp1 Hrun) as (t' & Ht' & Hrq' & Hab' & Hcp').
    exists t'. rewrite Hrq1 in Hrq', Hab'. auto.
Qed.

End Supersession.

(** C1. In a world the instance can be in, a call is suspended and a second
    call with the same method and the same built URL is issued.  Then the
    abort of the first call's controller is in the trace before the
    [fetch] of the second; the second call has a controller of its own,
    not aborted and registered under the key; and whatever happens next,
    with a transport that honours the signal, the controller of the first
    call stays aborted and the first call is suspended or has returned the
    failure object, never a payload; while it is suspended, the one
    settlement the transport can deliver to it is the cancellation, and
    with it the first call returns the failure object with the message of
    the cancellation. *)
Theorem supersession (URL_new : string -> string -> option URL)
    (w : world) (tid1 : nat) (t1 : task) (c : verb_call) :
  reachable URL_new w ->
  tasks w !! tid1 = Some t1 -> suspended t1 ->
  method_of c = rq_method (rq t1) ->
  url_of URL_new (self w) c = inr (rq_url (rq t1)) ->
  0 <= nullish (opt_retries (opts_of c)) (defaultRetries (self w)) ->
  let w' := call URL_new c w in
  let tid2 := length (tasks w) in
  exists t2,
    tasks w' !! tid2 = Some t2
    /\ at_ t2 = Suspended AwaitFetch
    /\ rq_key (rq t2) = rq_key (rq t1)
    /\ (exists before,
           trace w' = (before ++ [EFetch tid2 (fetch_args (self w) (rq t2))])%list
           /\ In (EAbort (rq_controller (rq t1))) before)
    /\ aborted w' (rq_controller (rq t1)) = true
    /\ rq_controller (rq t2) <> rq_controller (rq t1)
    /\ aborted w' (rq_controller (rq t2)) = false
    /\ controllers (self w') !! rq_key (rq t2) = Some (rq_controller (rq t2))
    /\ forall evs w'',
        run URL_new w' evs = Some w'' ->
        exists t1',
          tasks w'' !! tid1 = Some t1' /\ cancelled_or_pending t1'
          /\ aborted w'' (rq_controller (rq t1)) = true
          /\ (suspended t1' ->
              forall s,
                honours w'' (Settle tid1 s) = true ->
                exists err w3 t3,
                  s = Rejected err /\ is_abort s = true
                  /\ step URL_new w'' (Settle tid1 s) = Some w3
                  /\ tasks w3 !! tid1 = Some t3
                  /\ at_ t3 = Returned (Nok (err_message err))).
Proof.
  intros Hreach Ht1 Hsusp Hm Hurl Hn w' tid2.
  pose proof (reachable_inv _ _ Hreach) as [I1 I2 I3 I4].
  destruct (call_fetching URL_new w c _ Hurl Hn) as [[Ht2 Hlive2] Htr].
  set (f := new_frame w (method_of c) (path_of c) (data_of c) (opts_of c)
              (rq_url (rq t1))) in *.
  assert (Hkey : rq_key f = rq_key (rq t1)).
  { subst f. unfold rq_key. cbn [new_frame rq_method rq_url]. rewrite Hm. reflexivity. }
  assert (Hw' : w' = request URL_new (method_of c) (path_of c) (data_of c) (opts_of c) w).
  { subst w'. apply call_request. }
  assert (Hab1 : aborted w' (rq_controller (rq t1)) = true).
  { apply aborted_true. rewrite Hw'. unfold url_of in Hurl.
    rewrite (request_spec _ _ _ _ _ _ _ Hurl). cbn [signals]. fold f.
    apply lookup_app_l_Some. rewrite Hkey.
    destruct (I3 _ _ Ht1) as [Hab|Hr].
    - apply aborted_true in Hab.
      destruct (controllers (self w) !! rq_key (rq t1));
        [apply insert_true_mono|]; exact Hab.
    - rewrite Hr. apply list_lookup_insert_eq. eapply I2. exact Ht1. }
  eexists. split; [exact Ht2|]. cbn [at_ rq].
  split; [reflexivity|]. split; [exact Hkey|]. split; [|split; [exact Hab1|split; [|split; [exact Hlive2|split]]]].
  - exists (trace w ++ superseded w (rq_key f))%list. split.
    + subst w'. rewrite Htr, List.app_assoc. reflexivity.
    + apply in_or_app. unfold superseded. rewrite Hkey.
      destruct (I3 _ _ Ht1) as [Hab|Hr].
      * left. apply I4. apply aborted_true. exact Hab.
      * right. rewrite Hr. left. reflexivity.
  - subst f. cbn [new_frame rq_controller]. apply I2 in Ht1. lia.
  - rewrite Hw'. unfold url_of in Hurl.
    rewrite (request_spec _ _ _ _ _ _ _ Hurl). cbn [self set_controllers controllers].
    fold f. apply lookup_insert_eq.
  - intros evs w'' Hrun.
    assert (Ht1' : tasks w' !! tid1 = Some t1).
    { rewrite Hw'. apply request_keeps. exact Ht1. }
    destruct (cancelled_run_aborted URL_new evs w' w'' tid1 t1 Ht1' Hab1
                (or_introl Hsusp) Hrun) as (t1' & Ht1'' & Hrq & Hab & Hcp).
    exists t1'. split; [exact Ht1''|]. split; [exact Hcp|]. split; [exact Hab|].
    intros Hsusp' s Hhon.
    apply (cancelled_settles URL_new w'' tid1 t1' s Ht1'' Hsusp'); [|exact Hhon].
    rewrite Hrq. exact Hab.
Qed.

(** ** The life of a registered handle *)

(** C6, as stated, fails: a request that has completed with a payload
    still has its controller registered under its key. *)
Lemma completed_request_stays_registered : ~ removed_on_completion simple_URL_new.
Proof.
  intros H.
  pose (evs := [Call (Get "/users" VUndefined no_opts);
                Settle 0 (Responded ok_json);
                Settle 0 (BodyRead (VObj [("id", VNum 1)]))]).
  destruct (run simple_URL_new (init api_test) evs) as [w|] eqn:Hrun;
    [|vm_compute in Hrun; discriminate].
  assert (Hreach : reachable simple_URL_new w).
  { exists (VStr "https://api.test"), no_options, api_test, evs.
    split; [reflexivity|exact Hrun]. }
  vm_compute in Hrun. injection Hrun as <-.
  specialize (H _ 0%nat _ (Payload (VObj [("id", VNum 1)])) Hreach eq_refl eq_refl).
  vm_compute in H. discriminate.
Qed.

(** C6, amended. A call registers a fresh, unaborted controller under its
    key.  No later event removes or replaces a registered controller,
    except [abortAll()] and a call with the same key: the settlements of
    the request (payload, cancellation, last failure) and its timer leave
    the registry as it is. *)
Theorem handle_registered_until_superseded (URL_new : string -> string -> option URL) :
  (forall w c url,
      url_of URL_new (self w) c = inr url ->
      controllers (self (call URL_new c w)) !! (method_of c ++ "::" ++ url)
      = Some (length (signals w))
      /\ signals w !! length (signals w) = None
      /\ signals (call URL_new c w) !! length (signals w) = Some false)
  /\ (forall w tid s w',
         step URL_new w (Settle tid s) = Some w' ->
         controllers (self w') = controllers (self w))
  /\ (forall w tid w',
         step URL_new w (Timeout tid) = Some w' ->
         controllers (self w') = controllers (self w))
  /\ (forall w ev w' key ctrl,
         step URL_new w ev = Some w' ->
         controllers (self w) !! key = Some ctrl ->
         controllers (self w') !! key = Some ctrl
         \/ ev = AbortAll
         \/ exists c url, ev = Call c /\ url_of URL_new (self w) c = inr url
                          /\ key = method_of c ++ "::" ++ url).
Proof.
  assert (Hsettle : forall w tid s w',
             step URL_new w (Settle tid s) = Some w' ->
             controllers (self w') = controllers (self w)).
  { intros w tid s w' H. apply step_settle in H as (? & ? & ? & _ & _ & ->).
    reflexivity. }
  assert (Htimeout : forall w tid w',
             step URL_new w (Timeout tid) = Some w' ->
             controllers (self w') = controllers (self w)).
  { intros w tid w' H. apply step_timeout in H as (? & _ & _ & ->). reflexivity. }
  split; [|split; [exact Hsettle|split; [exact Htimeout|]]].
  - intros w c url Hurl. rewrite call_request. unfold url_of in Hurl.
    rewrite (request_spec _ _ _ _ _ _ _ Hurl).
    cbn [self signals set_controllers controllers]. unfold rq_key.
    cbn [new_frame rq_method rq_url]. split; [apply lookup_insert_eq|].
    split; [apply lookup_ge_None; lia|].
    rewrite lookup_app_r.
    + destruct (controllers (self w) !! _);
        rewrite ?length_insert, Nat.sub_diag; reflexivity.
    + destruct (controllers (self w) !! _); rewrite ?length_insert; lia.
  - intros w ev w' key ctrl Hstep Hreg. destruct ev as [c|tid s|tid| |v].
    + simpl in Hstep. injection Hstep as <-. rewrite call_request.
      destruct (url_of URL_new (self w) c) as [e|url] eqn:Hurl; unfold url_of in Hurl.
      * left. rewrite (request_throws _ _ _ _ _ _ _ Hurl). exact Hreg.
      * rewrite (request_spec _ _ _ _ _ _ _ Hurl).
        cbn [self set_controllers controllers]. unfold rq_key.
        cbn [new_frame rq_method rq_url].
        destruct (decide (method_of c ++ "::" ++ url = key)) as [E|Hne].
        -- right. right. exists c, url. unfold url_of. auto.
        -- left. rewrite lookup_insert_ne by exact Hne. exact Hreg.
    + left. rewrite (Hsettle _ _ _ _ Hstep). exact Hreg.
    + left. rewrite (Htimeout _ _ _ Hstep). exact Hreg.
    + right. left. reflexivity.
    + left. simpl in Hstep. injection Hstep as <-. exact Hreg.
Qed.

(** C8. [abortAll()] aborts the controller of every registered key and
    empties the registry.  A call issued next gets a controller that was
    never registered, is not aborted and is registered under the key of
    the call; the call supersedes nothing, waits for its [fetch], and the
    transport is free to answer it. *)
Theorem abortAll_clears (URL_new : string -> string -> option URL) (w : world) :
  reachable URL_new w ->
  exists w',
    step URL_new w AbortAll = Some w'
    /\ (forall key ctrl,
           controllers (self w) !! key = Some ctrl ->
           aborted w' ctrl = true /\ In (EAbort ctrl) (trace w'))
    /\ controllers (self w') = ∅
    /\ forall c url,
        url_of URL_new (self w') c = inr url ->
        0 <= nullish (opt_retries (opts_of c)) (defaultRetries (self w')) ->
        exists t,
          tasks (call URL_new c w') !! length (tasks w') = Some t
          /\ at_ t = Suspended AwaitFetch
          /\ rq_key (rq t) = method_of c ++ "::" ++ url
          /\ controllers (self (call URL_new c w')) !! rq_key (rq t)
             = Some (rq_controller (rq t))
          /\ aborted (call URL_new c w') (rq_controller (rq t)) = false
          /\ (forall key ctrl, controllers (self w) !! key = Some ctrl ->
                               ctrl <> rq_controller (rq t))
          /\ trace (call URL_new c w')
             = (trace w' ++ [EFetch (length (tasks w')) (fetch_args (self w') (rq t))])%list
          /\ forall s, honours (call URL_new c w') (Settle (length (tasks w')) s) = true.
Proof.
  intros Hreach. pose proof (reachable_inv _ _ Hreach) as [I1 I2 I3 I4].
  exists (abortAll w). split; [reflexivity|].
  split; [|split].
  - intros key ctrl Hreg. rewrite abortAll_spec. split.
    + apply aborted_true. cbn [signals]. apply mark_in.
      * eapply registered_in_values. exact Hreg.
      * eapply I1. exact Hreg.
    + cbn [trace]. apply in_or_app. right. apply in_map. apply in_rev.
      rewrite rev_involutive. apply list_elem_of_In.
      eapply registered_in_values. exact Hreg.
  - rewrite abortAll_spec. reflexivity.
  - intros c url Hurl Hn.
    destruct (call_fetching URL_new (abortAll w) c url Hurl Hn) as [[Ht Hlive] Htr].
    set (f := new_frame (abortAll w) (method_of c) (path_of c) (data_of c)
                (opts_of c) url) in *.
    assert (Hnone : controllers (self (abortAll w)) !! rq_key f = None).
    { rewrite abortAll_spec. apply lookup_empty. }
    eexists. split; [exact Ht|]. cbn [rq at_].
    split; [reflexivity|]. split; [reflexivity|].
    split; [|split; [exact Hlive|split; [|split]]].
    + rewrite call_request. unfold url_of in Hurl.
      rewrite (request_spec _ _ _ _ _ _ _ Hurl).
      cbn [self set_controllers controllers]. fold f. apply lookup_insert_eq.
    + intros key ctrl Hreg. apply I1 in Hreg. subst f.
      cbn [new_frame rq_controller]. rewrite abortAll_spec. cbn [signals].
      rewrite mark_length. lia.
    + rewrite Htr. unfold superseded. rewrite Hnone. reflexivity.
    + intros s. unfold honours. rewrite Ht. cbn [rq]. rewrite Hlive. reflexivity.
Qed.

(** ** Bodies of GET and DELETE *)

(** C5. A DELETE never dispatches a body.  A GET does: the parameters that
    went into the query string are also serialized as the JSON body of the
    [fetch], with a JSON content type. *)
Theorem get_params_sent_as_body :
  (forall URL_new w path opts,
      Forall (fun e => match e with
                       | EFetch _ f => f_body f = VUndefined
                       | _ => True
                       end)
             (drop (length (trace w)) (trace (call URL_new (Delete path opts) w))))
  /\ trace (call simple_URL_new
              (Get "/users" (VObj [("id", VArr [VNum 1; VNum 2])]) no_opts)
              (init api_test))
     = [EFetch 0
          {| f_url := "https://api.test/users?id=1&id=2"; f_method := "GET";
             f_headers := [("Content-Type", VStr "application/json")];
             f_body := VStr ("{" ++ json_quote "id" ++ ":[1,2]}");
             f_signal := 0 |}].
Proof.
  split; [|reflexivity].
  intros URL_new w path opts. rewrite call_request.
  cbn [method_of path_of data_of opts_of].
  destruct (buildUrl URL_new (self w) path
              (if String.eqb "DELETE" "GET" then default_null VNull else VNull)) as [e|url] eqn:Hurl.
  - rewrite (request_throws URL_new "DELETE" path VNull opts e w Hurl). cbn [emit trace].
    rewrite drop_app_length. repeat constructor.
  - rewrite (request_spec URL_new "DELETE" path VNull opts url w Hurl). cbn [trace].
    rewrite drop_app_length. apply Forall_app. split.
    + unfold superseded. destruct (controllers (self w) !! _); repeat constructor.
    + destruct (enter_loop_cases (self w) (length (tasks w))
                  (new_frame w "DELETE" path VNull opts url) 0) as [[_ ->]|[_ ->]];
        repeat constructor.
Qed.

(** ** Instances *)

Lemma first_world_reachable : reachable simple_URL_new first_world.
Proof.
  exists (VStr "https://api.test"), no_options, api_test,
    [Call (Get "/users" VUndefined no_opts)].
  split; reflexivity.
Qed.

Lemma supersession_witness :
  aborted (call simple_URL_new (Get "/users" VUndefined no_opts) first_world) 0 = true
  /\ controllers (self (call simple_URL_new (Get "/users" VUndefined no_opts) first_world))
       !! "GET::https://api.test/users" = Some 1%nat
  /\ exists err w3 t3,
      Rejected (Error "AbortError" "The operation was aborted.") = Rejected err
      /\ step simple_URL_new
           (call simple_URL_new (Get "/users" VUndefined no_opts) first_world)
           (Settle 0 (Rejected (Error "AbortError" "The operation was aborted.")))
         = Some w3
      /\ tasks w3 !! 0%nat = Some t3
      /\ at_ t3 = Returned (Nok (err_message err)).
Proof.
  destruct (supersession simple_URL_new first_world 0 first_task
              (Get "/users" VUndefined no_opts) first_world_reachable
              eq_refl (ex_intro _ AwaitFetch eq_refl) eq_refl eq_refl)
    as (t2 & Ht2 & _ & _ & _ & Hab & _ & _ & Hreg & Hlater).
  - vm_compute. discriminate.
  - split; [exact Hab|]. split.
    + vm_compute in Ht2. injection Ht2 as <-. exact Hreg.
    + destruct (Hlater [] _ eq_refl) as (t1' & Ht1' & _ & _ & Hsettle).
      vm_compute in Ht1'. injection Ht1' as <-.
      destruct (Hsettle (ex_intro _ AwaitFetch eq_refl)
                  (Rejected (Error "AbortError" "The operation was aborted."))
                  eq_refl)
        as (err & w3 & t3 & Hs & _ & Hstep & Ht3 & Hat).
      exists err, w3, t3. auto.
Defined.

Lemma retries_then_fails_witness :
  exists w2 t2 eff,
    run simple_URL_new (call simple_URL_new twice_more (init api_test))
      (concat (map (failure_events 0) (two_failures ++ [last_failure]))) = Some w2
    /\ tasks w2 !! 0%nat = Some t2
    /\ at_ t2 = Returned (Nok "Failed to fetch")
    /\ trace w2 = (trace (init api_test) ++ eff)%list
    /\ dispatches 0 eff = 3%nat.
Proof.
  apply (retries_then_fails simple_URL_new (init api_test) twice_more
           "https://api.test/users" 2 two_failures last_failure).
  - reflexivity.
  - left. reflexivity.
  - reflexivity.
  - repeat constructor.
  - reflexivity.
Defined.

Lemma cancellation_is_terminal_witness :
  attempt patient_task < rq_attempts (rq patient_task) - 1
  /\ exists err w' t',
      Rejected (Error "AbortError" "The operation was aborted.") = Rejected err
      /\ step simple_URL_new patient_world
           (Settle 0 (Rejected (Error "AbortError" "The operation was aborted.")))
         = Some w'
      /\ tasks w' !! 0%nat = Some t'
      /\ at_ t' = Returned (Nok (err_message err))
      /\ attempt t' = attempt patient_task
      /\ exists eff, trace w' = (trace patient_world ++ eff)%list
                     /\ forall tid', dispatches tid' eff = 0%nat.
Proof.
  split; [reflexivity|].
  apply (cancellation_is_terminal simple_URL_new patient_world 0 patient_task).
  - reflexivity.
  - exists AwaitFetch. reflexivity.
  - left. reflexivity.
Defined.

Lemma only_construction_throws_witness :
  (exists e, constructor (VStr "not-a-url") no_options = inl e)
  /\ exists pre fl post w' t' eff,
      (two_failures ++ [last_failure])%list = (pre ++ fl :: post)%list
      /\ run simple_URL_new (call simple_URL_new twice_more (init api_test))
           (concat (map (failure_events (length (tasks (init api_test))))
                        (pre ++ [fl])))
         = Some w'
      /\ tasks w' !! length (tasks (init api_test)) = Some t'
      /\ at_ t' = Returned (Nok (err_message (failure_error fl)))
      /\ trace w' = (trace (init api_test) ++ eff)%list
      /\ Forall (fun e => is_throw e = false) eff.
Proof.
  destruct (only_construction_throws simple_URL_new)
    as (Hnew & _ & _ & _ & _ & _ & Hends).
  split.
  - apply Hnew.
    intros (s & E & _ & [H|H]); injection E as <-; discriminate H.
  - apply (Hends (init api_test) twice_more "https://api.test/users" 2%nat
             (two_failures ++ [last_failure])%list).
    + reflexivity.
    + reflexivity.
    + reflexivity.
    + repeat constructor.
Defined.

Lemma handle_registered_until_superseded_witness :
  controllers (self (after [Call (Get "/users" VUndefined no_opts);
                            Settle 0 (Responded ok_json)]))
  = controllers (self first_world).
Proof.
  apply (proj1 (proj2 (handle_registered_until_superseded simple_URL_new))
           first_world 0%nat (Responded ok_json)).
  reflexivity.
Defined.

Lemma abortAll_clears_witness :
  exists w',
    step simple_URL_new first_world AbortAll = Some w'
    /\ aborted w' 0 = true /\ controllers (self w') = ∅.
Proof.
  destruct (abortAll_clears simple_URL_new first_world first_world_reachable)
    as (w' & Hstep & Hall & Hempty & _).
  exists w'. split; [exact Hstep|]. split; [|exact Hempty].
  apply (Hall "GET::https://api.test/users" 0%nat). reflexivity.
Defined.

(** * More of the class *)

(** ** Effects of one settlement *)

Module ShapeFacts.

Lemma dispatches_none tid eff :
  (forall f, ~ In (EFetch tid f) eff) -> dispatches tid eff = 0%nat.
Proof.
  unfold dispatches. induction eff as [|e eff IH]; intros H; [reflexivity|].
  rewrite filter_cons_False.
  - apply IH. intros f Hin. apply (H f). right. exact Hin.
  - destruct e as [|tid' f| |]; simpl; try discriminate.
    destruct (Nat.eqb_spec tid tid') as [->|Hne]; [|discriminate].
    exfalso. apply (H f). left. reflexivity.
Qed.

Lemma dispatches_other tid tid' f : tid <> tid' -> dispatches tid [EFetch tid' f] = 0%nat.
Proof.
  intros Hne. apply dispatches_none. intros f0 [E|[]]. congruence.
Qed.

Lemma quiet_not_fetch eff tid f : Forall quiet eff -> ~ In (EFetch tid f) eff.
Proof.
  intros H Hin. apply list_elem_of_In in Hin.
  rewrite Forall_forall in H. exact (H _ Hin).
Qed.

(** A settlement either ends the attempt without a [fetch], or it is a
    failure with budget left and begins the next attempt. *)
Lemma resume_shape this tid t s t' eff :
  resume this tid t s = Some (t', eff) ->
  rq t' = rq t
  /\ ((attempt t' = attempt t /\ timeoutId t' = false /\ Forall quiet eff)
      \/ (attempt t < rq_attempts (rq t) - 1
          /\ t' = {| rq := rq t; attempt := attempt t + 1;
                     timeoutId := 0 <? rq_timeoutMs (rq t);
                     at_ := Suspended AwaitFetch |}
          /\ eff = (log this (rq t) "RETRY" (attempt t)
                    ++ [EFetch tid (fetch_args this (rq t))])%list)).
Proof.
  intros H.
  assert (Hc : forall t0 err,
             rq t0 = rq t -> attempt t0 = attempt t ->
             catch this tid t0 err = (t', eff) ->
             rq t' = rq t
             /\ ((attempt t' = attempt t /\ timeoutId t' = false /\ Forall quiet eff)
                 \/ (attempt t < rq_attempts (rq t) - 1
                     /\ t' = {| rq := rq t; attempt := attempt t + 1;
                                timeoutId := 0 <? rq_timeoutMs (rq t);
                                at_ := Suspended AwaitFetch |}
                     /\ eff = (log this (rq t) "RETRY" (attempt t)
                               ++ [EFetch tid (fetch_args this (rq t))])%list))).
  { intros t0 err Hrq Hat Hcatch.
    destruct (catch_cases this tid t0 err) as [[_ E]|[(_ & Hlt & E)|(_ & _ & E)]];
      rewrite E in Hcatch; injection Hcatch as <- <-; cbn [rq attempt timeoutId];
      rewrite ?Hrq, ?Hat in *.
    - split; [reflexivity|]. left. repeat split. apply log_quiet.
    - split; [reflexivity|]. right. repeat split. exact Hlt.
    - split; [reflexivity|]. left. repeat split. apply log_quiet. }
  unfold resume in H. destruct (at_ t) as [a|o] eqn:Hat; [|destruct s; discriminate].
  destruct s as [r|v|err].
  - destruct a; try discriminate. injection H as <- <-. cbn [rq attempt timeoutId].
    split; [reflexivity|]. left. repeat split. constructor.
  - destruct a as [|r|r k]; try discriminate.
    + injection H as H. eapply Hc; [| |exact H]; reflexivity.
    + injection H as <- <-. cbn [rq attempt timeoutId].
      split; [reflexivity|]. left. repeat split. apply log_quiet.
  - destruct a; injection H as H; (eapply Hc; [| |exact H]); reflexivity.
Qed.

End ShapeFacts.
Import ShapeFacts.

(** ** The bookkeeping is kept *)

Section Ledger.

Variable URL_new : string -> string -> option URL.

Lemma insert_cases (l : list task) tid0 t0 t0' tid t' :
  l !! tid0 = Some t0 ->
  <[tid0 := t0']> l !! tid = Some t' ->
  (tid = tid0 /\ t' = t0') \/ (tid <> tid0 /\ l !! tid = Some t').
Proof.
  intros H0 H. destruct (decide (tid0 = tid)) as [->|Hne].
  - rewrite list_lookup_insert_eq in H by (eapply lookup_lt_Some; exact H0).
    injection H as <-. auto.
  - rewrite list_lookup_insert_ne in H by exact Hne. auto.
Qed.

Lemma accounted_init this : accounted (init this).
Proof.
  split; simpl.
  - intros i j t t' H. rewrite lookup_nil in H. discriminate.
  - intros key c tid t _ H. rewrite lookup_nil in H. discriminate.
  - intros tid t H. rewrite lookup_nil in H. discriminate.
  - intros tid f [].
  - intros tid t H. rewrite lookup_nil in H. discriminate.
Qed.

(** A step that rewrites one call, keeping its frame, and adds effects. *)
Lemma accounted_update w tid0 t0 t0' eff sig :
  accounted w ->
  tasks w !! tid0 = Some t0 -> rq t0' = rq t0 ->
  (timeoutId t0' = true -> at_ t0' = Suspended AwaitFetch /\ 0 < rq_timeoutMs (rq t0)) ->
  (forall tid f, In (EFetch tid f) eff ->
                 tid = tid0 /\ f = fetch_args (self w) (rq t0)) ->
  (if 0 <? rq_attempts (rq t0)
   then 0 <= attempt t0' < rq_attempts (rq t0)
        /\ (dispatches tid0 (trace w) + dispatches tid0 eff)%nat
           = Z.to_nat (attempt t0' + 1)
   else at_ t0' = Returned NoValue /\ dispatches tid0 eff = 0%nat) ->
  accounted {| self := self w; signals := sig;
               tasks := <[tid0 := t0']> (tasks w);
               trace := (trace w ++ eff)%list |}.
Proof.
  intros [K1 K2 K3 K4 K5] Ht0 Hrq Htimer Heff Hbudget.
  assert (Hsame : forall tid t', <[tid0 := t0']> (tasks w) !! tid = Some t' ->
                    exists t, tasks w !! tid = Some t /\ rq t' = rq t).
  { intros tid t' H. destruct (insert_cases _ _ _ _ _ _ Ht0 H) as [[-> ->]|[_ H']];
      eauto. }
  split; cbn [self signals tasks trace].
  - intros i j t t' Hi Hj Hc.
    destruct (Hsame _ _ Hi) as (ti & Hti & Ei).
    destruct (Hsame _ _ Hj) as (tj & Htj & Ej).
    rewrite Ei, Ej in Hc. eapply K1; eassumption.
  - intros key c tid t Hreg Ht Hc.
    destruct (Hsame _ _ Ht) as (t1 & Ht1 & E1). rewrite E1 in *.
    eapply K2; eassumption.
  - intros tid t Ht Harmed.
    destruct (insert_cases _ _ _ _ _ _ Ht0 Ht) as [[-> ->]|[_ Ht']].
    + rewrite Hrq. apply Htimer. exact Harmed.
    + eapply K3; eassumption.
  - intros tid f Hin. apply in_app_or in Hin as [Hin|Hin].
    + destruct (K4 _ _ Hin) as (t & Ht & Hf).
      destruct (decide (tid = tid0)) as [->|Hne].
      * exists t0'. split.
        -- apply list_lookup_insert_eq. eapply lookup_lt_Some. exact Ht0.
        -- rewrite Hrq. rewrite Ht0 in Ht. injection Ht as <-. exact Hf.
      * exists t. split; [|exact Hf].
        rewrite list_lookup_insert_ne by congruence. exact Ht.
    + destruct (Heff _ _ Hin) as [-> ->]. exists t0'. split.
      * apply list_lookup_insert_eq. eapply lookup_lt_Some. exact Ht0.
      * rewrite Hrq. repeat split.
  - intros tid t Ht. rewrite dispatches_app.
    destruct (insert_cases _ _ _ _ _ _ Ht0 Ht) as [[-> ->]|[Hne Ht']].
    + rewrite Hrq. specialize (K5 _ _ Ht0).
      destruct (0 <? rq_attempts (rq t0)).
      * exact Hbudget.
      * destruct K5 as [_ ->]. destruct Hbudget as [-> ->]. auto.
    + specialize (K5 _ _ Ht').
      assert (E : dispatches tid eff = 0%nat).
      { apply dispatches_none. intros f Hin. apply Heff in Hin as [E _]. congruence. }
      rewrite E, Nat.add_0_r. exact K5.
Qed.

Lemma accounted_request method path data opts w :
  inv w -> accounted w -> accounted (request URL_new method path data opts w).
Proof.
  intros [I1 I2 I3 I4] Hacc.
  destruct (buildUrl URL_new (self w) path
              (if String.eqb method "GET" then default_null data else VNull))
    as [e|url] eqn:Hurl.
  - rewrite (request_throws _ _ _ _ _ _ _ Hurl).
    destruct Hacc as [K1 K2 K3 K4 K5].
    split; cbn [emit self signals tasks trace]; auto.
    + intros tid f Hin. apply in_app_or in Hin as [Hin|[Hin|[]]];
        [auto|discriminate].
    + intros tid t Ht. specialize (K5 _ _ Ht). rewrite dispatches_app.
      rewrite (dispatches_none tid [EThrow e]), Nat.add_0_r; [exact K5|].
      intros f [H|[]]. discriminate.
  - rewrite (request_spec _ _ _ _ _ _ _ Hurl).
    set (f := new_frame w method path data opts url).
    set (tid0 := length (tasks w)).
    destruct Hacc as [K1 K2 K3 K4 K5].
    assert (Hfresh : forall tid t, tasks w !! tid = Some t ->
                        rq_controller (rq t) <> rq_controller f).
    { intros tid t Ht. apply I2 in Ht. subst f. cbn [new_frame rq_controller]. lia. }
    assert (Hnofetch : dispatches tid0 (trace w) = 0%nat).
    { apply dispatches_none. intros f0 Hin. destruct (K4 _ _ Hin) as (t & Ht & _).
      apply lookup_lt_Some in Ht. subst tid0. lia. }
    assert (Hsup : forall tid, dispatches tid (superseded w (rq_key f)) = 0%nat).
    { intros tid. unfold superseded. destruct (controllers (self w) !! rq_key f);
        reflexivity. }
    assert (Hnew : exists t0 eff0,
               enter_loop (self w) tid0 f 0 = (t0, eff0) /\ rq t0 = f /\ attempt t0 = 0
               /\ (timeoutId t0 = true ->
                     at_ t0 = Suspended AwaitFetch /\ 0 < rq_timeoutMs f)
               /\ (forall tid f0, In (EFetch tid f0) eff0 ->
                                  tid = tid0 /\ f0 = fetch_args (self w) f)
               /\ (if 0 <? rq_attempts f
                   then 0 < rq_attempts f /\ dispatches tid0 eff0 = 1%nat
                   else at_ t0 = Returned NoValue /\ dispatches tid0 eff0 = 0%nat)
               /\ forall tid, tid <> tid0 -> dispatches tid eff0 = 0%nat).
    { unfold enter_loop. destruct (Z.ltb_spec 0 (rq_attempts f)) as [Hlt|Hge].
      - eexists. eexists. split; [reflexivity|]. cbn [rq attempt timeoutId at_].
        split; [reflexivity|]. split; [reflexivity|]. split.
        + intros H. apply Z.ltb_lt in H. auto.
        + split.
          * intros tid f0 [E|[]]. injection E as <- <-. auto.
          * split; [split; [exact Hlt|apply dispatches_fetch]|].
            intros tid Hne. apply dispatches_other. exact Hne.
      - eexists. eexists. split; [reflexivity|]. cbn [rq attempt timeoutId at_].
        split; [reflexivity|]. split; [reflexivity|]. split; [discriminate|].
        split; [intros tid f0 []|]. split; [split; reflexivity|]. reflexivity. }
    destruct Hnew as (t0 & eff0 & -> & Hrq0 & Hat0 & Htimer0 & Heff0 & Hb0 & Hoth0).
    cbn [fst snd].
    split; cbn [self signals tasks trace set_controllers controllers].
    + intros i j t t' Hi Hj Hc.
      apply lookup_snoc_Some in Hi as [[_ Hi]|[-> <-]];
        apply lookup_snoc_Some in Hj as [[_ Hj]|[-> <-]].
      * eapply K1; eassumption.
      * rewrite Hrq0 in Hc. exfalso. eapply Hfresh; eassumption.
      * rewrite Hrq0 in Hc. exfalso. eapply Hfresh; [exact Hj|]. congruence.
      * reflexivity.
    + intros key c tid t Hreg Ht Hc.
      rewrite lookup_insert in Hreg.
      apply lookup_snoc_Some in Ht as [[_ Ht]|[_ <-]].
      * destruct (decide (rq_key f = key)) as [_|_].
        -- injection Hreg as <-. exfalso. eapply Hfresh; [exact Ht|exact Hc].
        -- eapply K2; eassumption.
      * rewrite Hrq0 in *. destruct (decide (rq_key f = key)) as [E|_]; [exact E|].
        apply I1 in Hreg. subst f. cbn [new_frame rq_controller] in Hc. lia.
    + intros tid t Ht Harmed.
      apply lookup_snoc_Some in Ht as [[_ Ht]|[_ <-]].
      * eapply K3; eassumption.
      * rewrite Hrq0. apply Htimer0. exact Harmed.
    + intros tid f0 Hin.
      apply in_app_or in Hin as [Hin|Hin]; [|apply in_app_or in Hin as [Hin|Hin]].
      * destruct (K4 _ _ Hin) as (t & Ht & Hf). exists t. split; [|exact Hf].
        apply lookup_app_l_Some. exact Ht.
      * unfold superseded in Hin. destruct (controllers (self w) !! rq_key f);
          [destruct Hin as [Hin|[]]; discriminate|destruct Hin].
      * destruct (Heff0 _ _ Hin) as [-> ->]. exists t0. split.
        -- apply list_lookup_middle. reflexivity.
        -- rewrite Hrq0. repeat split.
    + intros tid t Ht. rewrite !dispatches_app, Hsup.
      apply lookup_snoc_Some in Ht as [[Hlt Ht]|[-> <-]].
      * rewrite Hoth0 by (subst tid0; lia). rewrite !Nat.add_0_r.
        apply K5. exact Ht.
      * rewrite Hrq0, Hat0. fold tid0. rewrite Hnofetch.
        destruct (0 <? rq_attempts f).
        -- destruct Hb0 as [Hlt ->]. split; [lia|reflexivity].
        -- destruct Hb0 as [-> ->]. auto.
Qed.

Lemma accounted_step w ev w' :
  inv w -> accounted w -> step URL_new w ev = Some w' -> accounted w'.
Proof.
  intros Hinv Hacc Hstep. destruct ev as [c|tid0 s|tid0| |v].
  - simpl in Hstep. injection Hstep as <-. rewrite call_request.
    apply accounted_request; assumption.
  - apply step_settle in Hstep as (t0 & t0' & eff & Ht0 & Hres & ->).
    pose proof (resume_summary _ _ _ _ _ _ Hres) as ([a Ha] & _).
    pose proof (acc_budget _ Hacc _ _ Ht0) as Hb.
    apply resume_shape in Hres as (Hrq & [(Hat & Htm & Hq)|(Hlt & -> & ->)]).
    + apply (accounted_update w tid0 t0 t0' eff _ Hacc Ht0 Hrq).
      * rewrite Htm. discriminate.
      * intros tid f Hin. exfalso. eapply quiet_not_fetch; eassumption.
      * rewrite Hat, (quiet_no_fetch _ _ Hq), Nat.add_0_r.
        destruct (0 <? rq_attempts (rq t0)); [exact Hb|].
        destruct Hb as [Hb _]. congruence.
    + apply (accounted_update w tid0 t0 _ _ _ Hacc Ht0 Hrq); cbn [timeoutId at_ attempt].
      * intros H. apply Z.ltb_lt in H. auto.
      * intros tid f Hin. apply in_app_or in Hin as [Hin|[Hin|[]]].
        -- exfalso. eapply quiet_not_fetch; [apply log_quiet|exact Hin].
        -- injection Hin as <- <-. auto.
      * rewrite dispatches_app, dispatches_fetch,
          (quiet_no_fetch _ _ (log_quiet _ _ _ _)).
        destruct (0 <? rq_attempts (rq t0)).
        -- destruct Hb as [Hrange ->]. split; [lia|].
           rewrite (Z2Nat.inj_add (attempt t0 + 1) 1) by lia. simpl. lia.
        -- destruct Hb as [Hb _]. congruence.
  - apply step_timeout in Hstep as (t0 & Ht0 & _ & ->).
    pose proof (acc_budget _ Hacc _ _ Ht0) as Hb.
    eapply (accounted_update w tid0 t0 _ [EAbort (rq_controller (rq t0))] _ Hacc Ht0);
      cbn [rq timeoutId at_ attempt].
    + reflexivity.
    + discriminate.
    + intros tid f [H|[]]. discriminate.
    + rewrite (dispatches_none tid0 [EAbort _]) by (intros f [H|[]]; discriminate).
      rewrite Nat.add_0_r. destruct (0 <? rq_attempts (rq t0)); [exact Hb|].
      destruct Hb as [Hb _]. auto.
  - simpl in Hstep. injection Hstep as <-. rewrite abortAll_spec.
    destruct Hacc as [K1 K2 K3 K4 K5].
    assert (Hno : forall tid f,
               ~ In (EFetch tid f)
                    (map EAbort (rev (snd <$> map_to_list (controllers (self w)))))).
    { intros tid f Hin. apply in_map_iff in Hin as (c & E & _). discriminate. }
    split; cbn [self signals tasks trace set_controllers controllers]; auto.
    + intros key c tid t Hreg. rewrite lookup_empty in Hreg. discriminate.
    + intros tid f Hin. apply in_app_or in Hin as [Hin|Hin]; [auto|].
      exfalso. eapply Hno. exact Hin.
    + intros tid t Ht. rewrite dispatches_app, (dispatches_none tid (map _ _)).
      * rewrite Nat.add_0_r. apply K5. exact Ht.
      * intros f. apply Hno.
  - simpl in Hstep. injection Hstep as <-. destruct Hacc as [K1 K2 K3 K4 K5].
    split; cbn [set_self set_token self signals tasks trace controllers]; auto.
Qed.

Lemma accounted_run evs : forall w w',
  inv w -> accounted w -> run URL_new w evs = Some w' -> accounted w'.
Proof.
  induction evs as [|ev evs IH]; intros w w' Hinv Hacc Hrun; simpl in Hrun.
  - injection Hrun as <-. exact Hacc.
  - destruct (honours w ev); [|discriminate].
    destruct (step URL_new w ev) as [w1|] eqn:Hstep; [|discriminate].
    eapply IH; [| |exact Hrun].
    + eapply inv_step; eassumption.
    + eapply accounted_step; eassumption.
Qed.

Lemma reachable_accounted w : reachable URL_new w -> accounted w.
Proof.
  intros (root0 & options & this & evs & Hnew & Hrun).
  eapply accounted_run; [| |exact Hrun].
  - apply inv_init. unfold constructor in Hnew.
    destruct (negb (truthy root0) || negb (typeof_string root0)
              || negb (root_regex_test (ToString root0))); [discriminate|].
    injection Hnew as <-. reflexivity.
  - apply accounted_init.
Qed.

End Ledger.

(** ** Keys *)

(** X2. The registry keys of the five verbs tell the method and the URL
    apart: two calls have the same key exactly when they have the same
    method and the same URL. *)
Theorem key_identifies_method_and_url (c1 c2 : verb_call) (u1 u2 : string) :
  key_of c1 u1 = key_of c2 u2 <-> method_of c1 = method_of c2 /\ u1 = u2.
Proof.
  unfold key_of. split.
  - destruct c1, c2; cbn; intros H; simplify_eq; split; reflexivity.
  - intros [-> ->]. reflexivity.
Qed.

(** X3. A call under another key does not touch a call there is: its
    controller keeps its flag and the registry keeps the entry of its
    key. *)
Theorem other_keys_are_untouched (URL_new : string -> string -> option URL)
    (w : world) (tid1 : nat) (t1 : task) (c : verb_call) (url : string) :
  reachable URL_new w ->
  tasks w !! tid1 = Some t1 ->
  url_of URL_new (self w) c = inr url ->
  key_of c url <> rq_key (rq t1) ->
  tasks (call URL_new c w) !! tid1 = Some t1
  /\ aborted (call URL_new c w) (rq_controller (rq t1))
     = aborted w (rq_controller (rq t1))
  /\ controllers (self (call URL_new c w)) !! rq_key (rq t1)
     = controllers (self w) !! rq_key (rq t1).
Proof.
  intros Hreach Ht1 Hurl Hkey.
  pose proof (reachable_inv _ _ Hreach) as [_ I2 _ _].
  pose proof (reachable_accounted _ _ Hreach) as [_ K2 _ _ _].
  rewrite call_request. unfold url_of in Hurl.
  rewrite (request_spec _ _ _ _ _ _ _ Hurl).
  cbn [self signals tasks set_controllers controllers].
  change (rq_key (new_frame w (method_of c) (path_of c) (data_of c) (opts_of c) url))
    with (key_of c url).
  split; [apply lookup_app_l_Some; exact Ht1|]. split.
  - unfold aborted. cbn [signals].
    assert (Hlt : (rq_controller (rq t1) < length (signals w))%nat)
      by (eapply I2; exact Ht1).
    destruct (controllers (self w) !! key_of c url) as [c0|] eqn:Hreg.
    + rewrite lookup_app_l by (rewrite length_insert; exact Hlt).
      rewrite list_lookup_insert_ne; [reflexivity|].
      intros ->. apply Hkey. symmetry. eapply K2; [exact Hreg|exact Ht1|reflexivity].
    + rewrite lookup_app_l by exact Hlt. reflexivity.
  - apply lookup_insert_ne. exact Hkey.
Qed.

(** ** Aborts are for good *)

Section Monotone.

Variable URL_new : string -> string -> option URL.

Lemma step_signals w ev w' :
  step URL_new w ev = Some w' ->
  (length (signals w) <= length (signals w'))%nat
  /\ forall c, signals w !! c = Some true -> signals w' !! c = Some true.
Proof.
  intros Hstep. destruct ev as [c|tid s|tid| |v].
  - simpl in Hstep. injection Hstep as <-. rewrite call_request. split.
    + destruct (buildUrl URL_new (self w) (path_of c)
                  (if String.eqb (method_of c) "GET"
                   then default_null (data_of c) else VNull)) as [e|url] eqn:Hurl.
      * rewrite (request_throws _ _ _ _ _ _ _ Hurl). reflexivity.
      * rewrite (request_spec _ _ _ _ _ _ _ Hurl). cbn [signals].
        rewrite length_app.
        destruct (controllers (self w) !! _); rewrite ?length_insert; lia.
    + apply request_keeps.
  - apply step_settle in Hstep as (? & ? & ? & _ & _ & ->). cbn [signals]. auto.
  - apply step_timeout in Hstep as (? & _ & _ & ->). cbn [signals].
    rewrite length_insert. split; [lia|]. intros c. apply insert_true_mono.
  - simpl in Hstep. injection Hstep as <-. rewrite abortAll_spec. cbn [signals].
    rewrite mark_length. split; [lia|]. intros c. apply mark_mono.
  - simpl in Hstep. injection Hstep as <-. cbn [set_self signals]. auto.
Qed.

End Monotone.

(** X4. No event takes an abort back, and no controller is given up: over
    any run the store of controllers only grows and a controller that is
    aborted stays aborted. *)
Theorem aborted_stays_aborted (URL_new : string -> string -> option URL)
    (evs : list event) (w w' : world) (c : nat) :
  run URL_new w evs = Some w' ->
  (length (signals w) <= length (signals w'))%nat
  /\ (aborted w c = true -> aborted w' c = true).
Proof.
  revert w. induction evs as [|ev evs IH]; intros w Hrun; simpl in Hrun.
  - injection Hrun as <-. auto.
  - destruct (honours w ev); [|discriminate].
    destruct (step URL_new w ev) as [w1|] eqn:Hstep; [|discriminate].
    destruct (step_signals _ _ _ _ Hstep) as [Hlen Hmono].
    destruct (IH _ Hrun) as [Hlen' Hmono']. split; [lia|].
    intros Hab. apply Hmono'. apply aborted_true. apply Hmono.
    apply aborted_true. exact Hab.
Qed.

(** X5. [abortAll()] reaches every call ever issued, registered or not:
    afterwards the controller of each call is aborted, and a call that was
    suspended can only stay suspended or return the failure object. *)
Theorem abortAll_cancels_every_call (URL_new : string -> string -> option URL)
    (w : world) (tid : nat) (t : task) :
  reachable URL_new w ->
  tasks w !! tid = Some t ->
  aborted (abortAll w) (rq_controller (rq t)) = true
  /\ (suspended t ->
      forall evs w', run URL_new (abortAll w) evs = Some w' ->
                     exists t', tasks w' !! tid = Some t' /\ cancelled_or_pending t').
Proof.
  intros Hreach Ht.
  pose proof (reachable_inv _ _ Hreach) as [_ I2 I3 _].
  assert (Hab : aborted (abortAll w) (rq_controller (rq t)) = true).
  { apply aborted_true. rewrite abortAll_spec. cbn [signals].
    destruct (I3 _ _ Ht) as [Hab|Hr].
    - apply mark_mono. apply aborted_true. exact Hab.
    - apply mark_in; [eapply registered_in_values; exact Hr|eapply I2; exact Ht]. }
  split; [exact Hab|].
  intros Hsusp evs w' Hrun.
  assert (Ht' : tasks (abortAll w) !! tid = Some t)
    by (rewrite abortAll_spec; exact Ht).
  eapply cancelled_run; [exact Ht'|exact Hab|left; exact Hsusp|exact Hrun].
Qed.

(** ** Timers, fetches and the budget *)

(** X6. A timer can fire only for a call that waits for its [fetch] and
    whose timeout is positive: not while a body is read, not after the
    call has returned, never for a timeout of zero.  Firing aborts the
    controller of the call. *)
Theorem timer_only_while_fetching (URL_new : string -> string -> option URL)
    (w w' : world) (tid : nat) (t : task) :
  reachable URL_new w ->
  tasks w !! tid = Some t ->
  step URL_new w (Timeout tid) = Some w' ->
  at_ t = Suspended AwaitFetch /\ 0 < rq_timeoutMs (rq t)
  /\ aborted w' (rq_controller (rq t)) = true.
Proof.
  intros Hreach Ht Hstep.
  pose proof (reachable_inv _ _ Hreach) as [_ I2 _ _].
  pose proof (reachable_accounted _ _ Hreach) as [_ _ K3 _ _].
  apply step_timeout in Hstep as (t0 & Ht0 & Harmed & ->).
  rewrite Ht in Ht0. injection Ht0 as <-.
  destruct (K3 _ _ Ht Harmed) as [Hat Hpos].
  split; [exact Hat|]. split; [exact Hpos|].
  apply aborted_true. cbn [signals]. apply list_lookup_insert_eq.
  eapply I2. exact Ht.
Qed.

(** ** Whatever the transport does *)

Section Attainable.

Variable URL_new : string -> string -> option URL.

Lemma run_play evs : forall w w',
  run URL_new w evs = Some w' -> play URL_new w evs = Some w'.
Proof.
  induction evs as [|ev evs IH]; intros w w' H; simpl in *.
  - exact H.
  - destruct (honours w ev); [|discriminate].
    destruct (step URL_new w ev); [apply IH; exact H|discriminate].
Qed.

Lemma reachable_attainable w : reachable URL_new w -> attainable URL_new w.
Proof.
  intros (root0 & options & this & evs & Hnew & Hrun).
  exists root0, options, this, evs. split; [exact Hnew|].
  apply run_play. exact Hrun.
Qed.

Lemma ordered_frame w w' :
  ordered w ->
  (forall c, signals w !! c = Some true -> signals w' !! c = Some true) ->
  (forall tid t', tasks w' !! tid = Some t' ->
                  exists t, tasks w !! tid = Some t /\ rq t' = rq t) ->
  ordered w'.
Proof.
  intros Hord Hmono Hsame i j t t' Hlt Hi Hj Hkey.
  destruct (Hsame _ _ Hi) as (ti & Hti & Ei).
  destruct (Hsame _ _ Hj) as (tj & Htj & Ej).
  rewrite Ei, Ej in *. apply aborted_true. apply Hmono. apply aborted_true.
  eapply Hord; eassumption.
Qed.

Lemma ordered_request method path data opts w :
  inv w -> ordered w -> ordered (request URL_new method path data opts w).
Proof.
  intros [I1 I2 I3 I4] Hord.
  destruct (request_keeps URL_new method path data opts w) as [Hkeep Hmono].
  destruct (buildUrl URL_new (self w) path
              (if String.eqb method "GET" then default_null data else VNull))
    as [e|url] eqn:Hurl.
  - apply (ordered_frame w); [exact Hord|exact Hmono|].
    rewrite (request_throws _ _ _ _ _ _ _ Hurl). cbn [emit tasks]. eauto.
  - intros i j t t' Hlt Hi Hj Hkey. apply aborted_true.
    revert Hi Hj Hmono. rewrite (request_spec _ _ _ _ _ _ _ Hurl).
    set (f := new_frame w method path data opts url).
    cbn [tasks signals]. intros Hi Hj Hmono.
    assert (Hfst : rq (fst (enter_loop (self w) (length (tasks w)) f 0)) = f).
    { unfold enter_loop. destruct (0 <? rq_attempts f); reflexivity. }
    apply lookup_snoc_Some in Hi as [[Hil Hi]|[-> <-]].
    + apply lookup_snoc_Some in Hj as [[_ Hj]|[_ <-]].
      * apply Hmono. apply aborted_true. exact (Hord i j t t' Hlt Hi Hj Hkey).
      * rewrite Hfst in Hkey. destruct (I3 _ _ Hi) as [Hab|Hr].
        -- apply Hmono. apply aborted_true. exact Hab.
        -- apply lookup_app_l_Some. rewrite <- Hkey, Hr.
           apply list_lookup_insert_eq. eapply I2. exact Hi.
    + apply lookup_snoc_Some in Hj as [[Hjl _]|[-> _]]; lia.
Qed.

Lemma ordered_step w ev w' :
  inv w -> ordered w -> step URL_new w ev = Some w' -> ordered w'.
Proof.
  intros Hinv Hord Hstep.
  destruct ev as [c|tid0 s|tid0| |v].
  - simpl in Hstep. injection Hstep as <-. rewrite call_request.
    apply ordered_request; assumption.
  - pose proof (step_signals _ _ _ _ Hstep) as [_ Hmono].
    apply step_settle in Hstep as (t0 & t0' & eff & Ht0 & Hres & ->).
    apply resume_summary in Hres as (_ & Hrq & _ & _).
    apply (ordered_frame w); [exact Hord|exact Hmono|]. cbn [tasks].
    intros tid t'. apply (insert_same_frame _ _ _ _ _ _ Ht0 Hrq).
  - pose proof (step_signals _ _ _ _ Hstep) as [_ Hmono].
    apply step_timeout in Hstep as (t0 & Ht0 & _ & ->).
    apply (ordered_frame w); [exact Hord|exact Hmono|]. cbn [tasks].
    intros tid t'. apply (insert_same_frame _ _ _ _ _ _ Ht0). reflexivity.
  - pose proof (step_signals _ _ _ _ Hstep) as [_ Hmono].
    simpl in Hstep. injection Hstep as <-.
    apply (ordered_frame w); [exact Hord|exact Hmono|].
    rewrite abortAll_spec. cbn [tasks]. eauto.
  - simpl in Hstep. injection Hstep as <-.
    apply (ordered_frame w); [exact Hord| |]; cbn [set_self signals tasks]; eauto.
Qed.

Lemma play_keeps evs : forall w w',
  inv w /\ accounted w /\ ordered w ->
  play URL_new w evs = Some w' ->
  inv w' /\ accounted w' /\ ordered w'.
Proof.
  induction evs as [|ev evs IH]; intros w w' H Hplay; simpl in Hplay.
  - injection Hplay as <-. exact H.
  - destruct (step URL_new w ev) as [w1|] eqn:Hstep; [|discriminate].
    destruct H as (Hinv & Hacc & Hord).
    eapply IH; [|exact Hplay]. split; [|split].
    + eapply inv_step; eassumption.
    + eapply accounted_step; eassumption.
    + eapply ordered_step; eassumption.
Qed.

Lemma attainable_kept w :
  attainable URL_new w -> inv w /\ accounted w /\ ordered w.
Proof.
  intros (root0 & options & this & evs & Hnew & Hplay).
  eapply play_keeps; [|exact Hplay]. split; [|split].
  - apply inv_init. unfold constructor in Hnew.
    destruct (negb (truthy root0) || negb (typeof_string root0)
              || negb (root_regex_test (ToString root0))); [discriminate|].
    injection Hnew as <-. reflexivity.
  - apply accounted_init.
  - intros i j t t' _ Hi. simpl in Hi. rewrite lookup_nil in Hi. discriminate.
Qed.

End Attainable.

(** X1. Whatever the transport does, among the calls made for one key
    every call but the latest is aborted: of two calls with the same key
    the earlier has an aborted controller, so at most one call of a key
    has a controller that is not aborted, and that controller is the one
    registered under the key. *)
Theorem one_live_call_per_key (URL_new : string -> string -> option URL)
    (w : world) (i j : nat) (t t' : task) :
  attainable URL_new w ->
  tasks w !! i = Some t -> tasks w !! j = Some t' ->
  rq_key (rq t) = rq_key (rq t') ->
  ((i < j)%nat -> aborted w (rq_controller (rq t)) = true)
  /\ (aborted w (rq_controller (rq t)) = false ->
      aborted w (rq_controller (rq t')) = false ->
      i = j /\ controllers (self w) !! rq_key (rq t) = Some (rq_controller (rq t))).
Proof.
  intros Hatt Hi Hj Hkey.
  destruct (attainable_kept _ _ Hatt) as ([_ _ I3 _] & [K1 _ _ _ _] & Hord).
  split.
  - intros Hlt. eapply Hord; eassumption.
  - intros Hlive Hlive'.
    destruct (I3 _ _ Hi) as [Hab|Hr]; [congruence|].
    destruct (I3 _ _ Hj) as [Hab|Hr']; [congruence|].
    split; [|exact Hr]. apply (K1 i j t t' Hi Hj). congruence.
Qed.

(** X7. Whatever the transport does, every [fetch] the instance has
    dispatched belongs to a call and goes to the URL of that call, with
    its method and with the signal of its one controller: the retries of
    a call share the controller of its first attempt. *)
Theorem every_fetch_carries_its_call (URL_new : string -> string -> option URL)
    (w : world) (tid : nat) (f : fetch_call) :
  attainable URL_new w ->
  In (EFetch tid f) (trace w) ->
  exists t,
    tasks w !! tid = Some t
    /\ f_url f = rq_url (rq t) /\ f_method f = rq_method (rq t)
    /\ f_signal f = rq_controller (rq t).
Proof.
  intros Hatt Hin.
  destruct (attainable_kept _ _ Hatt) as (_ & Hacc & _).
  exact (acc_fetch _ Hacc _ _ Hin).
Qed.

(** X8. Whatever the transport, the timers and the callers do, also a
    transport that does not honour the signal, a call never dispatches
    more [fetch]es than its budget of attempts; while its loop runs it has
    dispatched one per attempt begun. *)
Theorem budget_is_never_exceeded (URL_new : string -> string -> option URL)
    (w : world) (tid : nat) (t : task) :
  attainable URL_new w ->
  tasks w !! tid = Some t ->
  (dispatches tid (trace w) <= Z.to_nat (rq_attempts (rq t)))%nat
  /\ (0 < rq_attempts (rq t) ->
      dispatches tid (trace w) = Z.to_nat (attempt t + 1)).
Proof.
  intros Hatt Ht.
  destruct (attainable_kept _ _ Hatt) as (_ & Hacc & _).
  pose proof (acc_budget _ Hacc _ _ Ht) as Hb.
  destruct (Z.ltb_spec 0 (rq_attempts (rq t))) as [Hlt|Hge].
  - destruct Hb as [Hrange ->]. split; [lia|reflexivity].
  - destruct Hb as [_ ->]. split; [lia|]. lia.
Qed.

(** ** What ends an attempt *)

Section Attempts.

Variable URL_new : string -> string -> option URL.

(** The answer to a pending [fetch]: the timer is cleared and the call
    waits for the body. *)
Lemma responded w tid f k r :
  fetching w tid f k ->
  honours w (Settle tid (Responded r)) = true
  /\ step URL_new w (Settle tid (Responded r))
     = Some {| self := self w; signals := signals w;
               tasks := <[tid := {| rq := f; attempt := k; timeoutId := false;
                                    at_ := Suspended (if negb (ok r)
                                                      then AwaitErrorText r
                                                      else AwaitBody r (choose_reader r)) |}]>
                          (tasks w);
               trace := trace w |}.
Proof.
  intros [Ht Hlive]. unfold honours, step. rewrite Ht. cbn [rq].
  rewrite Hlive. split; [reflexivity|]. cbn [resume at_ rq attempt].
  rewrite app_nil_r. reflexivity.
Qed.

(** A body that is read ends the call with the payload. *)
Lemma success_returns w tid f k r v :
  fetching w tid f k -> ok r = true ->
  run URL_new w [Settle tid (Responded r); Settle tid (BodyRead v)]
  = Some {| self := self w; signals := signals w;
            tasks := <[tid := {| rq := f; attempt := k; timeoutId := false;
                                 at_ := Returned (Payload v) |}]> (tasks w);
            trace := (trace w ++ log (self w) f (ToString (VNum (status r))) k)%list |}.
Proof.
  intros Hf Hok. destruct (responded w tid f k r Hf) as [Hh Hs].
  destruct Hf as [Ht Hlive].
  cbn [run]. rewrite Hh, Hs, Hok. cbn [negb].
  assert (Hlt : (tid < length (tasks w))%nat) by (eapply lookup_lt_Some; exact Ht).
  unfold honours, step. cbn [tasks signals self trace].
  rewrite list_lookup_insert_eq by exact Hlt. cbn [rq].
  unfold aborted in *. cbn [signals]. rewrite Hlive.
  cbn [resume at_ rq attempt]. rewrite list_insert_insert_eq. reflexivity.
Qed.

(** A body that cannot be read is a failure like any other. *)
Lemma unreadable_caught w tid f k r err :
  fetching w tid f k -> ok r = true ->
  run URL_new w [Settle tid (Responded r); Settle tid (Rejected err)]
  = Some {| self := self w; signals := signals w;
            tasks := <[tid := fst (catch (self w) tid
                                     {| rq := f; attempt := k; timeoutId := false;
                                        at_ := Suspended AwaitFetch |} err)]> (tasks w);
            trace := (trace w
                      ++ snd (catch (self w) tid
                                {| rq := f; attempt := k; timeoutId := false;
                                   at_ := Suspended AwaitFetch |} err))%list |}.
Proof.
  intros Hf Hok. destruct (responded w tid f k r Hf) as [Hh Hs].
  destruct Hf as [Ht Hlive].
  cbn [run]. rewrite Hh, Hs, Hok. cbn [negb].
  assert (Hlt : (tid < length (tasks w))%nat) by (eapply lookup_lt_Some; exact Ht).
  unfold honours, step. cbn [tasks signals self trace].
  rewrite list_lookup_insert_eq by exact Hlt. cbn [rq].
  unfold aborted in *. cbn [signals]. rewrite Hlive.
  cbn [resume at_ rq attempt]. rewrite surjective_pairing at 1.
  cbn [tasks trace]. rewrite list_insert_insert_eq.
  assert (Hcatch : forall t1 t2,
             rq t1 = rq t2 -> attempt t1 = attempt t2 ->
             catch (self w) tid t1 err = catch (self w) tid t2 err).
  { intros t1 t2 E1 E2. unfold catch. rewrite E1, E2. reflexivity. }
  rewrite (Hcatch _ {| rq := f; attempt := k; timeoutId := false;
                       at_ := Suspended AwaitFetch |}) by reflexivity.
  reflexivity.
Qed.

End Attempts.

(** X9. Retrying pays: when the first attempts of a call fail with
    network errors or bad statuses, within its budget, and the next is
    answered with a success status and a readable body, the call returns
    that body as its payload, having dispatched one [fetch] per failure
    and one more. *)
Theorem success_after_retries (URL_new : string -> string -> option URL)
    (w : world) (c : verb_call) (url : string)
    (fs : list failure) (r : Response) (v : jsval) :
  url_of URL_new (self w) c = inr url ->
  Z.of_nat (length fs)
  <= nullish (opt_retries (opts_of c)) (defaultRetries (self w)) ->
  Forall genuine fs -> ok r = true ->
  let tid := length (tasks w) in
  exists w' t' eff,
    run URL_new (call URL_new c w)
      (concat (map (failure_events tid) fs)
       ++ [Settle tid (Responded r); Settle tid (BodyRead v)]) = Some w'
    /\ tasks w' !! tid = Some t'
    /\ at_ t' = Returned (Payload v)
    /\ trace w' = (trace w ++ eff)%list
    /\ dispatches tid eff = S (length fs).
Proof.
  intros Hurl Hn Hfs Hok tid.
  destruct (call_fetching URL_new w c url Hurl) as [Hf0 Htr0]; [lia|].
  set (f := new_frame w (method_of c) (path_of c) (data_of c) (opts_of c) url) in *.
  destruct (failures_retried URL_new fs _ tid f 0 Hf0 Hfs)
    as (w1 & eff1 & Hrun1 & Hf1 & Htr1 & Hd1).
  { subst f. cbn [new_frame rq_attempts]. lia. }
  rewrite run_app, Hrun1, (success_returns URL_new _ _ _ _ r v Hf1 Hok).
  eexists. eexists.
  exists (superseded w (rq_key f) ++ [EFetch tid (fetch_args (self w) f)]
          ++ eff1 ++ log (self w1) f (ToString (VNum (status r))) (0 + Z.of_nat (length fs)))%list.
  split; [reflexivity|]. cbn [tasks trace].
  split; [apply list_lookup_insert_eq; eapply lookup_lt_Some; exact (proj1 Hf1)|].
  split; [reflexivity|]. split.
  - rewrite Htr1, Htr0, <- !List.app_assoc. reflexivity.
  - rewrite !dispatches_app, dispatches_fetch, Hd1.
    rewrite (quiet_no_fetch _ _ (log_quiet _ _ _ _)).
    unfold superseded. destruct (controllers (self w) !! rq_key f); simpl; lia.
Qed.

(** X10. A response with a success status whose body cannot be read (a
    JSON body that does not parse, say) is no success: with budget left
    the call dispatches its next [fetch], without it the call returns the
    failure object with the message of the reading error. *)
Theorem undecodable_body_is_retried (URL_new : string -> string -> option URL)
    (w : world) (tid : nat) (f : frame) (k : Z) (r : Response) (err : error) :
  fetching w tid f k -> ok r = true ->
  String.eqb (err_name err) "AbortError" = false ->
  exists w' t' eff,
    run URL_new w [Settle tid (Responded r); Settle tid (Rejected err)] = Some w'
    /\ tasks w' !! tid = Some t'
    /\ trace w' = (trace w ++ eff)%list
    /\ if k <? rq_attempts f - 1
       then at_ t' = Suspended AwaitFetch /\ attempt t' = k + 1
            /\ dispatches tid eff = 1%nat
       else at_ t' = Returned (Nok (err_message err))
            /\ dispatches tid eff = 0%nat.
Proof.
  intros Hf Hok Hname. rewrite (unreadable_caught URL_new _ _ _ _ r err Hf Hok).
  destruct Hf as [Ht _].
  assert (Hlt : (tid < length (tasks w))%nat) by (eapply lookup_lt_Some; exact Ht).
  eexists. eexists. eexists. split; [reflexivity|]. cbn [tasks trace].
  split; [apply list_lookup_insert_eq; exact Hlt|]. split; [reflexivity|].
  destruct (catch_cases (self w) tid
              {| rq := f; attempt := k; timeoutId := false;
                 at_ := Suspended AwaitFetch |} err)
    as [[E _]|[(_ & Hlt' & E)|(_ & Hge & E)]]; cbn [rq attempt] in *.
  - congruence.
  - rewrite E. cbn [fst snd at_ attempt].
    destruct (Z.ltb_spec k (rq_attempts f - 1)); [|lia].
    split; [reflexivity|]. split; [reflexivity|].
    rewrite dispatches_app, dispatches_fetch,
      (quiet_no_fetch _ _ (log_quiet _ _ _ _)). reflexivity.
  - rewrite E. cbn [fst snd at_ attempt].
    destruct (Z.ltb_spec k (rq_attempts f - 1)); [lia|].
    split; [reflexivity|]. apply quiet_no_fetch, log_quiet.
Qed.

(** X11. When the timer of a waiting call fires, the call is over: the
    only settlement a transport that honours the signal can deliver is the
    cancellation, and with it the call returns the failure object without
    another [fetch], whatever is left of its retries. *)
Theorem timeout_ends_the_call (URL_new : string -> string -> option URL)
    (w : world) (tid : nat) (f : frame) (k : Z) :
  reachable URL_new w ->
  fetching w tid f k -> 0 < rq_timeoutMs f ->
  exists w1,
    step URL_new w (Timeout tid) = Some w1
    /\ aborted w1 (rq_controller f) = true
    /\ forall s w2,
        honours w1 (Settle tid s) = true ->
        step URL_new w1 (Settle tid s) = Some w2 ->
        exists err t2,
          s = Rejected err
          /\ tasks w2 !! tid = Some t2
          /\ at_ t2 = Returned (Nok (err_message err))
          /\ trace w2 = (trace w ++ EAbort (rq_controller f)
                           :: log (self w) f "ABORT" k)%list.
Proof.
  intros Hreach [Ht Hlive] Hpos.
  pose proof (reachable_inv _ _ Hreach) as [_ I2 _ _].
  assert (Hlt : (tid < length (tasks w))%nat) by (eapply lookup_lt_Some; exact Ht).
  assert (Hc : (rq_controller f < length (signals w))%nat)
    by (apply (I2 _ _ Ht)).
  unfold step at 1. rewrite Ht. cbn [timeoutId rq attempt at_ signal_abort self signals tasks trace].
  apply Z.ltb_lt in Hpos. rewrite Hpos.
  eexists. split; [reflexivity|].
  assert (Hab : forall tk tr,
             aborted {| self := self w;
                        signals := <[rq_controller f := true]> (signals w);
                        tasks := tk; trace := tr |} (rq_controller f) = true).
  { intros tk tr. apply aborted_true. cbn [signals].
    apply list_lookup_insert_eq. exact Hc. }
  split; [apply Hab|].
  intros s w2 Hhon Hstep.
  unfold honours in Hhon. cbn [tasks] in Hhon.
  rewrite list_lookup_insert_eq in Hhon by exact Hlt. cbn [rq] in Hhon.
  rewrite Hab in Hhon.
  destruct s as [r|v|err]; try discriminate. simpl in Hhon.
  unfold step in Hstep. cbn [tasks self signals trace] in Hstep.
  rewrite list_lookup_insert_eq in Hstep by exact Hlt.
  cbn [resume at_] in Hstep. unfold catch in Hstep. rewrite Hhon in Hstep.
  cbn [rq attempt] in Hstep. injection Hstep as <-.
  exists err. eexists. split; [reflexivity|]. cbn [tasks trace].
  split; [apply list_lookup_insert_eq; rewrite length_insert; exact Hlt|].
  split; [reflexivity|]. rewrite <- List.app_assoc. reflexivity.
Qed.

(** ** Headers, once more *)

Module HeaderFacts.

(** Copying properties over an object never removes one. *)
Lemma spread_keeps k o src :
  obj_get k o <> None -> obj_get k (spread o src) <> None.
Proof.
  unfold spread. revert o. induction src as [|[k0 v0] src IH]; intros o H; simpl.
  - exact H.
  - apply IH. rewrite obj_get_set. destruct (String.eqb k k0); [discriminate|exact H].
Qed.

Lemma authorization_header this opts data :
  obj_get "Authorization" (nullish (opt_headers opts) []) = None ->
  obj_get "Authorization" (requestHeaders this opts data)
  = if truthy (opt_token opts)
    then Some (VStr ("Bearer " ++ ToString (opt_token opts)))
    else if truthy (token this)
         then Some (VStr ("Bearer " ++ ToString (token this)))
         else None.
Proof.
  intros Hnone. unfold requestHeaders.
  rewrite obj_get_spread by apply wf_headers. unfold headers.
  rewrite (obj_get_spread_None _ _ _ Hnone).
  rewrite !obj_get_spread by apply wf_bearer.
  rewrite !obj_get_bearer. simpl.
  destruct (truthy (opt_token opts)); [reflexivity|].
  destruct (truthy (token this)); reflexivity.
Qed.

Lemma content_type_header this opts data :
  obj_get "Content-Type" (nullish (opt_headers opts) []) = None ->
  obj_get "Content-Type" (requestHeaders this opts data) = Some (fst (content data)).
Proof.
  intros Hnone. unfold requestHeaders.
  rewrite obj_get_spread by apply wf_headers. unfold headers.
  rewrite (obj_get_spread_None _ _ _ Hnone).
  rewrite !obj_get_spread by apply wf_bearer.
  rewrite !obj_get_bearer. reflexivity.
Qed.

End HeaderFacts.
Import HeaderFacts.

(** X12. Every request is dispatched with a [Content-Type] property,
    whatever the custom headers are; for a call without payload and
    without a custom [Content-Type] its value is [undefined]. *)
Theorem content_type_is_always_sent (this : SuperFetch) (f : frame) :
  obj_get "Content-Type" (f_headers (fetch_args this f)) <> None
  /\ (rq_data f = VNull ->
      obj_get "Content-Type" (nullish (opt_headers (rq_opts f)) []) = None ->
      obj_get "Content-Type" (f_headers (fetch_args this f)) = Some VUndefined).
Proof.
  split.
  - cbn [fetch_args f_headers]. unfold requestHeaders.
    apply spread_keeps. simpl. discriminate.
  - intros Hdata Hnone. cbn [fetch_args f_headers].
    rewrite content_type_header by exact Hnone. rewrite Hdata. reflexivity.
Qed.

Lemma content_type_is_always_sent_witness :
  obj_get "Content-Type" (f_headers (fetch_args with_token empty_token_frame))
  = Some VUndefined.
Proof.
  apply (proj2 (content_type_is_always_sent with_token empty_token_frame));
    reflexivity.
Defined.

(** ** The token and the retries *)

(** X13. The headers are built anew for each attempt: when the token of
    the instance is replaced while a call waits, and the attempt then
    fails with budget left, the retry is dispatched with the new token in
    its [Authorization] header (for a call without a token and without a
    custom [Authorization] of its own). *)
Theorem token_change_reaches_retries (URL_new : string -> string -> option URL)
    (w : world) (tid : nat) (f : frame) (k : Z) (fl : failure) (v : jsval) :
  fetching w tid f k -> genuine fl -> k < rq_attempts f - 1 ->
  truthy v = true ->
  truthy (opt_token (rq_opts f)) = false ->
  obj_get "Authorization" (nullish (opt_headers (rq_opts f)) []) = None ->
  exists w' eff fa,
    run URL_new w (SetToken v :: failure_events tid fl) = Some w'
    /\ trace w' = (trace w ++ eff ++ [EFetch tid fa])%list
    /\ Forall (fun e => is_log e = true) eff
    /\ obj_get "Authorization" (f_headers fa)
       = Some (VStr ("Bearer " ++ ToString v)).
Proof.
  intros [Ht Hlive] Hgen Hlt Hv Hcall Hnone.
  set (w1 := set_self w (set_token (self w) v)).
  assert (Hf1 : fetching w1 tid f k) by (split; [exact Ht|exact Hlive]).
  change (run URL_new w (SetToken v :: failure_events tid fl))
    with (run URL_new w1 (failure_events tid fl)).
  rewrite (failure_caught URL_new _ _ _ _ _ Hf1 Hgen).
  destruct (catch_cases (self w1) tid
              {| rq := f; attempt := k; timeoutId := false;
                 at_ := Suspended AwaitFetch |} (failure_error fl))
    as [[E _]|[(_ & _ & E)|(_ & Hge & _)]]; cbn [rq attempt] in *.
  - rewrite genuine_not_abort in E by exact Hgen. discriminate.
  - rewrite E. cbn [fst snd].
    eexists. exists (log (self w1) f "RETRY" k). eexists.
    split; [reflexivity|]. split; [reflexivity|]. split.
    + eapply Forall_impl; [apply log_quiet|]. intros [] Hq; try contradiction.
      reflexivity.
    + cbn [fetch_args f_headers]. rewrite authorization_header by exact Hnone.
      rewrite Hcall. cbn [w1 set_self self set_token token]. rewrite Hv.
      reflexivity.
  - lia.
Qed.

(** ** The budget below one *)

(** X14. A call whose retries are negative makes no attempt: it returns
    [undefined] and dispatches nothing.  It is registered all the same:
    it takes the key with a controller of its own and aborts the one that
    held it. *)
Theorem negative_retries_skip_the_loop (URL_new : string -> string -> option URL)
    (w : world) (c : verb_call) (url : string) :
  reachable URL_new w ->
  url_of URL_new (self w) c = inr url ->
  nullish (opt_retries (opts_of c)) (defaultRetries (self w)) < 0 ->
  exists t,
    tasks (call URL_new c w) !! length (tasks w) = Some t
    /\ at_ t = Returned NoValue
    /\ trace (call URL_new c w) = (trace w ++ superseded w (key_of c url))%list
    /\ controllers (self (call URL_new c w)) !! key_of c url
       = Some (length (signals w))
    /\ forall held, controllers (self w) !! key_of c url = Some held ->
                    aborted (call URL_new c w) held = true.
Proof.
  intros Hreach Hurl Hneg.
  pose proof (reachable_inv _ _ Hreach) as [I1 _ _ _].
  rewrite call_request. unfold url_of in Hurl.
  rewrite (request_spec _ _ _ _ _ _ _ Hurl).
  set (f := new_frame w (method_of c) (path_of c) (data_of c) (opts_of c) url).
  change (rq_key f) with (key_of c url).
  destruct (enter_loop_cases (self w) (length (tasks w)) f 0) as [[Hlt _]|[_ E]].
  { subst f. cbn [new_frame rq_attempts] in Hlt. lia. }
  rewrite E. cbn [fst snd tasks trace self signals set_controllers controllers].
  eexists. split; [apply list_lookup_middle; reflexivity|].
  split; [reflexivity|]. split; [rewrite app_nil_r; reflexivity|].
  split; [apply lookup_insert_eq|].
  intros held Hheld. apply aborted_true. cbn [signals]. rewrite Hheld.
  apply lookup_app_l_Some. apply list_lookup_insert_eq. eapply I1. exact Hheld.
Qed.

(** ** The log *)

Module LogFacts.

Lemma log_off this f st k : logging this f = false -> log this f st k = [].
Proof.
  unfold log, logging. intros H. apply orb_false_elim in H as [-> ->]. reflexivity.
Qed.

Lemma log_on this f st k :
  logging this f = true ->
  log this f st k = [ELog (rq_method f) (rq_path f) st (k + 1)].
Proof.
  unfold log, logging. intros H.
  destruct (logRequests this), (opt_log (rq_opts f)); try discriminate; reflexivity.
Qed.

Lemma resume_silent this tid t s t' eff :
  logging this (rq t) = false ->
  resume this tid t s = Some (t', eff) ->
  Forall (fun e => is_log e = false) eff.
Proof.
  intros Hoff H.
  assert (Hlog : forall st k, log this (rq t) st k = [])
    by (intros; apply log_off; exact Hoff).
  assert (Hc : forall t0 err,
             rq t0 = rq t -> catch this tid t0 err = (t', eff) ->
             Forall (fun e => is_log e = false) eff).
  { intros t0 err Hrq Hcatch.
    destruct (catch_cases this tid t0 err) as [[_ E]|[(_ & _ & E)|(_ & _ & E)]];
      rewrite E in Hcatch; injection Hcatch as <- <-; rewrite Hrq, Hlog;
      repeat constructor. }
  unfold resume in H. destruct (at_ t) as [a|o]; [|destruct s; discriminate].
  destruct s as [r|v|err].
  - destruct a; try discriminate. injection H as <- <-. constructor.
  - destruct a as [|r|r k]; try discriminate.
    + injection H as H. eapply Hc; [|exact H]. reflexivity.
    + injection H as <- <-. rewrite Hlog. constructor.
  - destruct a; injection H as H; (eapply Hc; [|exact H]); reflexivity.
Qed.

End LogFacts.
Import LogFacts.

(** X15. Logging is opt-in: with [logRequests] off and no call forcing
    it, no event writes a log line. *)
Theorem logging_is_opt_in (URL_new : string -> string -> option URL)
    (w w' : world) (ev : event) :
  step URL_new w ev = Some w' ->
  logRequests (self w) = false ->
  (forall tid t, tasks w !! tid = Some t -> opt_log (rq_opts (rq t)) = false) ->
  exists eff, trace w' = (trace w ++ eff)%list
              /\ Forall (fun e => is_log e = false) eff.
Proof.
  intros Hstep Hglobal Hcalls. destruct ev as [c|tid s|tid| |v].
  - simpl in Hstep. injection Hstep as <-. rewrite call_request.
    destruct (buildUrl URL_new (self w) (path_of c)
                (if String.eqb (method_of c) "GET"
                 then default_null (data_of c) else VNull)) as [e|url] eqn:Hurl.
    + rewrite (request_throws _ _ _ _ _ _ _ Hurl). eexists.
      split; [reflexivity|]. repeat constructor.
    + rewrite (request_spec _ _ _ _ _ _ _ Hurl). eexists.
      split; [reflexivity|]. apply Forall_app. split.
      * unfold superseded. destruct (controllers (self w) !! _); repeat constructor.
      * destruct (enter_loop_cases (self w) (length (tasks w))
                    (new_frame w (method_of c) (path_of c) (data_of c) (opts_of c) url) 0)
          as [[_ ->]|[_ ->]]; repeat constructor.
  - apply step_settle in Hstep as (t & t' & eff & Ht & Hres & ->).
    exists eff. split; [reflexivity|].
    eapply resume_silent; [|exact Hres].
    unfold logging. rewrite Hglobal, (Hcalls _ _ Ht). reflexivity.
  - apply step_timeout in Hstep as (t & _ & _ & ->). eexists.
    split; [reflexivity|]. repeat constructor.
  - simpl in Hstep. injection Hstep as <-. rewrite abortAll_spec. eexists.
    split; [reflexivity|]. apply Forall_forall. intros e He.
    apply list_elem_of_In in He. apply in_map_iff in He as (c & <- & _). reflexivity.
  - simpl in Hstep. injection Hstep as <-. exists [].
    split; [cbn [set_self trace]; rewrite app_nil_r; reflexivity|constructor].
Qed.

(** X16. With logging on for a call, every settlement that ends an
    attempt writes exactly one line, with the method and path of the call
    and the attempt counted from one: the status for a payload, [RETRY]
    when the next attempt begins, [ABORT] or [ERROR] with the failure
    object.  The answer to the [fetch] alone writes nothing. *)
Theorem one_log_line_per_ended_attempt (this : SuperFetch) (tid : nat)
    (t t' : task) (s : settlement) (eff : list effect) :
  logging this (rq t) = true ->
  resume this tid t s = Some (t', eff) ->
  (exists r, s = Responded r /\ eff = [])
  \/ exists tag,
      filter (fun e => is_log e = true) eff
      = [ELog (rq_method (rq t)) (rq_path (rq t)) tag (attempt t + 1)]
      /\ match at_ t' with
         | Suspended _ => tag = "RETRY"
         | Returned (Payload _) =>
             exists r k, at_ t = Suspended (AwaitBody r k)
                         /\ tag = ToString (VNum (status r))
         | Returned (Nok _) => tag = "ABORT" \/ tag = "ERROR"
         | Returned NoValue => False
         end.
Proof.
  intros Hon H.
  assert (Hlog : forall st k,
             log this (rq t) st k
             = [ELog (rq_method (rq t)) (rq_path (rq t)) st (k + 1)])
    by (intros; apply log_on; exact Hon).
  assert (Hc : forall t0 err,
             rq t0 = rq t -> attempt t0 = attempt t ->
             catch this tid t0 err = (t', eff) ->
             exists tag,
               filter (fun e => is_log e = true) eff
               = [ELog (rq_method (rq t)) (rq_path (rq t)) tag (attempt t + 1)]
               /\ match at_ t' with
                  | Suspended _ => tag = "RETRY"
                  | Returned (Payload _) =>
                      exists r k, at_ t = Suspended (AwaitBody r k)
                                  /\ tag = ToString (VNum (status r))
                  | Returned (Nok _) => tag = "ABORT" \/ tag = "ERROR"
                  | Returned NoValue => False
                  end).
  { intros t0 err Hrq Hat Hcatch.
    destruct (catch_cases this tid t0 err) as [[_ E]|[(_ & _ & E)|(_ & _ & E)]];
      rewrite E in Hcatch; injection Hcatch as <- <-;
      rewrite Hrq, Hat, Hlog; cbn [at_].
    - exists "ABORT". split; [reflexivity|]. left. reflexivity.
    - exists "RETRY". split; [reflexivity|]. reflexivity.
    - exists "ERROR". split; [reflexivity|]. right. reflexivity. }
  unfold resume in H. destruct (at_ t) as [a|o] eqn:Hat; [|destruct s; discriminate].
  destruct s as [r|v|err].
  - destruct a; try discriminate. injection H as <- <-. left. eauto.
  - right. destruct a as [|r|r k]; try discriminate.
    + injection H as H. eapply Hc; [| |exact H]; reflexivity.
    + injection H as <- <-. rewrite Hlog. cbn [at_].
      eexists. split; [reflexivity|]. eauto.
  - right. destruct a; injection H as H; (eapply Hc; [| |exact H]); reflexivity.
Qed.

(** ** Posting an object *)


(** ** What stays as it is *)

(** X19. [abortAll()] a second time does nothing: the registry is empty
    already, so no flag changes and no abort is emitted. *)
Theorem abortAll_twice (w : world) : abortAll (abortAll w) = abortAll w.
Proof.
  rewrite (abortAll_spec (abortAll w)). rewrite abortAll_spec.
  cbn [self signals tasks trace set_controllers controllers].
  rewrite map_to_list_empty. cbn [fmap list_fmap rev map mark foldr].
  rewrite app_nil_r. reflexivity.
Qed.

(** X20. Calls, settlements, timers and aborts never change the
    configuration of the instance: the base URL, the logging flag and the
    default timeout and retries are those of the constructor for good,
    and the token changes only when it is assigned. *)
Theorem configuration_is_kept (URL_new : string -> string -> option URL)
    (evs : list event) (w w' : world) :
  run URL_new w evs = Some w' ->
  root (self w') = root (self w)
  /\ logRequests (self w') = logRequests (self w)
  /\ defaultTimeout (self w') = defaultTimeout (self w)
  /\ defaultRetries (self w') = defaultRetries (self w)
  /\ (Forall (fun ev => sets_token ev = false) evs ->
      token (self w') = token (self w)).
Proof.
  revert w. induction evs as [|ev evs IH]; intros w Hrun; simpl in Hrun.
  - injection Hrun as <-. repeat split.
  - destruct (honours w ev); [|discriminate].
    destruct (step URL_new w ev) as [w1|] eqn:Hstep; [|discriminate].
    destruct (IH _ Hrun) as (E1 & E2 & E3 & E4 & E5).
    assert (Hs : root (self w1) = root (self w)
                 /\ logRequests (self w1) = logRequests (self w)
                 /\ defaultTimeout (self w1) = defaultTimeout (self w)
                 /\ defaultRetries (self w1) = defaultRetries (self w)
                 /\ (sets_token ev = false -> token (self w1) = token (self w))).
    { destruct ev as [c|tid s|tid| |v].
      - simpl in Hstep. injection Hstep as <-. rewrite call_request.
        destruct (buildUrl URL_new (self w) (path_of c)
                    (if String.eqb (method_of c) "GET"
                     then default_null (data_of c) else VNull)) as [e|url] eqn:Hurl.
        + rewrite (request_throws _ _ _ _ _ _ _ Hurl). repeat split.
        + rewrite (request_spec _ _ _ _ _ _ _ Hurl). repeat split.
      - apply step_settle in Hstep as (? & ? & ? & _ & _ & ->). repeat split.
      - apply step_timeout in Hstep as (? & _ & _ & ->). repeat split.
      - simpl in Hstep. injection Hstep as <-. rewrite abortAll_spec. repeat split.
      - simpl in Hstep. injection Hstep as <-. repeat split. discriminate. }
    destruct Hs as (S1 & S2 & S3 & S4 & S5).
    repeat split; try congruence.
    intros Hall. apply Forall_cons in Hall as [Hev Hall].
    rewrite (E5 Hall). apply S5. exact Hev.
Qed.

(** ** Instances of the added facts *)

Lemma patient_world_reachable : reachable simple_URL_new patient_world.
Proof.
  exists (VStr "https://api.test"), patient_options, patient, [Call post_ada].
  split; reflexivity.
Qed.

Lemma patient_world_fetching : fetching patient_world 0 patient_frame 0.
Proof. split; reflexivity. Qed.

Lemma one_live_call_per_key_witness :
  ((0 < 1)%nat ->
   aborted (played api_test [Call get_users; Call get_users])
           (rq_controller (rq first_task)) = true)
  /\ (aborted (played api_test [Call get_users; Call get_users])
              (rq_controller (rq first_task)) = false ->
      aborted (played api_test [Call get_users; Call get_users])
              (rq_controller (rq second_task)) = false ->
      0%nat = 1%nat
      /\ controllers (self (played api_test [Call get_users; Call get_users]))
           !! rq_key (rq first_task)
         = Some (rq_controller (rq first_task))).
Proof.
  apply (one_live_call_per_key simple_URL_new
           (played api_test [Call get_users; Call get_users]) 0 1
           first_task second_task).
  - exists (VStr "https://api.test"), no_options, api_test,
      [Call get_users; Call get_users].
    split; reflexivity.
  - reflexivity.
  - reflexivity.
  - reflexivity.
Defined.

Lemma other_keys_are_untouched_witness :
  tasks (call simple_URL_new post_ada first_world) !! 0%nat = Some first_task
  /\ aborted (call simple_URL_new post_ada first_world) (rq_controller (rq first_task))
     = aborted first_world (rq_controller (rq first_task))
  /\ controllers (self (call simple_URL_new post_ada first_world))
       !! rq_key (rq first_task)
     = controllers (self first_world) !! rq_key (rq first_task).
Proof.
  apply (other_keys_are_untouched simple_URL_new first_world 0 first_task post_ada
           "https://api.test/users" first_world_reachable).
  - reflexivity.
  - reflexivity.
  - vm_compute. discriminate.
Defined.

Lemma aborted_stays_aborted_witness :
  (length (signals (after [Call get_users; AbortAll]))
   <= length (signals (after [Call get_users; AbortAll; Call get_users])))%nat
  /\ (aborted (after [Call get_users; AbortAll]) 0 = true ->
      aborted (after [Call get_users; AbortAll; Call get_users]) 0 = true).
Proof.
  apply (aborted_stays_aborted simple_URL_new [Call get_users]
           (after [Call get_users; AbortAll])
           (after [Call get_users; AbortAll; Call get_users]) 0).
  reflexivity.
Defined.

Lemma abortAll_cancels_every_call_witness :
  aborted (abortAll first_world) (rq_controller (rq first_task)) = true.
Proof.
  apply (proj1 (abortAll_cancels_every_call simple_URL_new first_world 0 first_task
                  first_world_reachable eq_refl)).
Defined.

Lemma timer_only_while_fetching_witness :
  at_ patient_task = Suspended AwaitFetch /\ 0 < rq_timeoutMs (rq patient_task)
  /\ aborted (patient_after [Call post_ada; Timeout 0])
             (rq_controller (rq patient_task)) = true.
Proof.
  apply (timer_only_while_fetching simple_URL_new patient_world
           (patient_after [Call post_ada; Timeout 0]) 0 patient_task
           patient_world_reachable); reflexivity.
Defined.

Lemma every_fetch_carries_its_call_witness :
  dispatches 0 (trace (played patient one_retry)) = 2%nat
  /\ exists t,
      tasks (played patient one_retry) !! 0%nat = Some t
      /\ f_url (fetch_args patient patient_frame) = rq_url (rq t)
      /\ f_method (fetch_args patient patient_frame) = rq_method (rq t)
      /\ f_signal (fetch_args patient patient_frame) = rq_controller (rq t).
Proof.
  split; [reflexivity|].
  apply (every_fetch_carries_its_call simple_URL_new (played patient one_retry) 0
           (fetch_args patient patient_frame)).
  - exists (VStr "https://api.test"), patient_options, patient, one_retry.
    split; reflexivity.
  - vm_compute. right. right. left. reflexivity.
Defined.

Lemma budget_is_never_exceeded_witness :
  run simple_URL_new (init api_test) deaf_transport = None
  /\ (dispatches 0 (trace (played api_test deaf_transport))
      <= Z.to_nat (rq_attempts (rq deaf_task)))%nat
  /\ (0 < rq_attempts (rq deaf_task) ->
      dispatches 0 (trace (played api_test deaf_transport))
      = Z.to_nat (attempt deaf_task + 1)).
Proof.
  split; [reflexivity|].
  apply (budget_is_never_exceeded simple_URL_new (played api_test deaf_transport) 0
           deaf_task).
  - exists (VStr "https://api.test"), no_options, api_test, deaf_transport.
    split; reflexivity.
  - reflexivity.
Defined.

Lemma success_after_retries_witness :
  exists w' t' eff,
    run simple_URL_new (call simple_URL_new twice_more (init api_test))
      (concat (map (failure_events 0) two_failures)
       ++ [Settle 0 (Responded ok_json); Settle 0 (BodyRead (VObj [("id", VNum 1)]))])
    = Some w'
    /\ tasks w' !! 0%nat = Some t'
    /\ at_ t' = Returned (Payload (VObj [("id", VNum 1)]))
    /\ trace w' = (trace (init api_test) ++ eff)%list
    /\ dispatches 0 eff = 3%nat.
Proof.
  apply (success_after_retries simple_URL_new (init api_test) twice_more
           "https://api.test/users" two_failures ok_json (VObj [("id", VNum 1)])).
  - reflexivity.
  - vm_compute. discriminate.
  - repeat constructor.
  - reflexivity.
Defined.

Lemma undecodable_body_is_retried_witness :
  exists w' t' eff,
    run simple_URL_new patient_world
      [Settle 0 (Responded ok_json); Settle 0 (Rejected bad_json)] = Some w'
    /\ tasks w' !! 0%nat = Some t'
    /\ trace w' = (trace patient_world ++ eff)%list
    /\ at_ t' = Suspended AwaitFetch /\ attempt t' = 1
    /\ dispatches 0 eff = 1%nat.
Proof.
  destruct (undecodable_body_is_retried simple_URL_new patient_world 0 patient_frame 0
              ok_json bad_json patient_world_fetching eq_refl eq_refl)
    as (w' & t' & eff & Hrun & Ht & Htr & Hend).
  exists w', t', eff.
  assert (E : (0 <? rq_attempts patient_frame - 1) = true) by reflexivity.
  rewrite E in Hend. tauto.
Defined.

Lemma timeout_ends_the_call_witness :
  exists w1,
    step simple_URL_new patient_world (Timeout 0) = Some w1
    /\ aborted w1 0 = true.
Proof.
  destruct (timeout_ends_the_call simple_URL_new patient_world 0 patient_frame 0
              patient_world_reachable patient_world_fetching eq_refl)
    as (w1 & Hstep & Hab & _).
  exists w1. split; [exact Hstep|exact Hab].
Defined.

Lemma token_change_reaches_retries_witness :
  exists w' eff fa,
    run simple_URL_new patient_world
      (SetToken (VStr "fresh") :: failure_events 0 last_failure) = Some w'
    /\ trace w' = (trace patient_world ++ eff ++ [EFetch 0 fa])%list
    /\ Forall (fun e => is_log e = true) eff
    /\ obj_get "Authorization" (f_headers fa) = Some (VStr "Bearer fresh").
Proof.
  apply (token_change_reaches_retries simple_URL_new patient_world 0 patient_frame 0
           last_failure (VStr "fresh") patient_world_fetching); reflexivity.
Defined.

Lemma negative_retries_skip_the_loop_witness :
  exists t,
    tasks (call simple_URL_new no_attempts first_world) !! 1%nat = Some t
    /\ at_ t = Returned NoValue
    /\ aborted (call simple_URL_new no_attempts first_world) 0 = true.
Proof.
  destruct (negative_retries_skip_the_loop simple_URL_new first_world no_attempts
              "https://api.test/users" first_world_reachable eq_refl eq_refl)
    as (t & Ht & Hat & _ & _ & Hheld).
  exists t. split; [exact Ht|]. split; [exact Hat|].
  apply Hheld. reflexivity.
Defined.

Lemma logging_is_opt_in_witness :
  exists eff,
    trace (after [Call get_users; Settle 0 (Rejected failed_to_fetch)])
    = (trace first_world ++ eff)%list
    /\ Forall (fun e => is_log e = false) eff.
Proof.
  apply (logging_is_opt_in simple_URL_new first_world
           (after [Call get_users; Settle 0 (Rejected failed_to_fetch)])
           (Settle 0 (Rejected failed_to_fetch))).
  - reflexivity.
  - reflexivity.
  - intros [|tid] t H; [injection H as <-; reflexivity|discriminate H].
Defined.

Lemma one_log_line_per_ended_attempt_witness :
  (exists r, Rejected failed_to_fetch = Responded r
             /\ snd (catch patient 0 patient_task failed_to_fetch) = [])
  \/ exists tag,
      filter (fun e => is_log e = true)
             (snd (catch patient 0 patient_task failed_to_fetch))
      = [ELog "POST" "/users" tag 1]
      /\ match at_ (fst (catch patient 0 patient_task failed_to_fetch)) with
         | Suspended _ => tag = "RETRY"
         | Returned (Payload _) =>
             exists r k, at_ patient_task = Suspended (AwaitBody r k)
                         /\ tag = ToString (VNum (status r))
         | Returned (Nok _) => tag = "ABORT" \/ tag = "ERROR"
         | Returned NoValue => False
         end.
Proof.
  apply (one_log_line_per_ended_attempt patient 0 patient_task
           (fst (catch patient 0 patient_task failed_to_fetch))
           (Rejected failed_to_fetch)
           (snd (catch patient 0 patient_task failed_to_fetch)));
    reflexivity.
Defined.


Lemma configuration_is_kept_witness :
  root (self (after [Call get_users; AbortAll])) = root (self (init api_test))
  /\ logRequests (self (after [Call get_users; AbortAll]))
     = logRequests (self (init api_test))
  /\ defaultTimeout (self (after [Call get_users; AbortAll]))
     = defaultTimeout (self (init api_test))
  /\ defaultRetries (self (after [Call get_users; AbortAll]))
     = defaultRetries (self (init api_test))
  /\ (Forall (fun ev => sets_token ev = false) [Call get_users; AbortAll] ->
      token (self (after [Call get_users; AbortAll])) = token (self (init api_test))).
Proof.
  apply (configuration_is_kept simple_URL_new [Call get_users; AbortAll]
           (init api_test) (after [Call get_users; AbortAll])).
  reflexivity.
Defined.
